(** * Launcher utilities: argument quoting and path relativization

    A shallow embedding of [src/tools/launcher/util/launcher_util.cc]
    (namespace [bazel::launcher]) and the properties of its two string
    algorithms, [WindowsEscapeArg2] / [BashEscapeArg] and [RelativeTo].

    Data model.  A [std::wstring] is a list of UTF-16 code units; a code
    unit ([wchar_t], 16 bits on Windows) is a [Z].  The C++ [int] indices
    ([i], [j], [start], [pos], [back_slash_pos]) are [Z], so that the
    sentinel [-1] is available; no index arithmetic of the source can wrap
    for strings shorter than [2^31] characters (an environment block or a
    command line holds at most 32767), which is the range the model covers.
    The one place where the source narrows an integer, [char c = s[i]], has
    its wrap-around written out in [to_char]. *)

From Stdlib Require Import String Ascii ZArith List Bool Lia.
Import ListNotations.
Local Open Scope Z_scope.

(** ** Wide strings *)

Definition wchar_t := Z.
Definition wstring := list wchar_t.

Definition NUL : wchar_t := 0.
Definition TAB : wchar_t := 9.
Definition SPACE : wchar_t := 32.
Definition QUOTE : wchar_t := 34.
Definition DOT : wchar_t := 46.
Definition COLON : wchar_t := 58.
Definition BACKSLASH : wchar_t := 92.

(** [L s] is the wide literal with the code units of the ASCII string [s]. *)
Definition L (s : string) : wstring :=
  map (fun a => Z.of_N (N_of_ascii a)) (list_ascii_of_string s).

(** [s.size()] *)
Definition size (s : wstring) : Z := Z.of_nat (length s).

(** [s[i]] for [0 <= i <= s.size()]: the character at [i], and the
    terminator [L'\0'] at [i = s.size()]. *)
Definition at_ (s : wstring) (i : Z) : wchar_t := nth (Z.to_nat i) s NUL.

(** [s.substr(pos, n)] and [s.substr(pos)] for [pos <= s.size()]. *)
Definition substr (s : wstring) (pos n : Z) : wstring :=
  firstn (Z.to_nat n) (skipn (Z.to_nat pos) s).
Definition substr_from (s : wstring) (pos : Z) : wstring :=
  skipn (Z.to_nat pos) s.

(** The conversion [wchar_t -> char] of [char c = s[i]]: the low eight
    bits, read as a signed byte. *)
Definition to_char (c : wchar_t) : Z :=
  let b := c mod 256 in if b <? 128 then b else b - 256.

(** [k] copies of a backslash, the [for (k = 0; k < n; ++k) result << L'\\']
    loops. *)
Definition backslashes (n : Z) : wstring := repeat BACKSLASH (Z.to_nat n).

(** ** BashEscapeArg *)

Definition bash_escape_char (ch : wchar_t) : wstring :=
  if ch =? QUOTE then [BACKSLASH; QUOTE]
  else if ch =? BACKSLASH then [BACKSLASH; BACKSLASH]
  else [ch].

Definition BashEscapeArg (argument : wstring) : wstring :=
  let has_space := existsb (fun c => c =? SPACE) argument in
  match argument with
  | [] => [QUOTE; QUOTE]
  | _ =>
    let escaped_arg := if has_space then [QUOTE] else [] in
    let escaped_arg := escaped_arg ++ flat_map bash_escape_char argument in
    if has_space then escaped_arg ++ [QUOTE] else escaped_arg
  end.

(** ** WindowsEscapeArg2 *)

(** The first loop: is there a space or a quote?  It compares the wide
    character itself ([const auto& c]). *)
Definition needs_escaping (s : wstring) : bool :=
  existsb (fun c => (c =? SPACE) || (c =? QUOTE)) s.

(** [while (j < s.size() && s[j] == '\\') { run_len++; j++; }] *)
Fixpoint backslash_run (fuel : nat) (s : wstring) (run_len j : Z) : Z * Z :=
  match fuel with
  | O => (run_len, j)
  | S fuel' =>
    if (j <? size s) && (at_ s j =? BACKSLASH)
    then backslash_run fuel' s (run_len + 1) (j + 1)
    else (run_len, j)
  end.

(** The main loop [for (int i = 0; i < s.size(); ++i)], from the state
    [(i, start, result)]; it returns the stream and [start] as they are
    when the loop is left, by its condition or by [break]. *)
Fixpoint escape_loop (fuel : nat) (s : wstring) (i start : Z)
  (result : wstring) : wstring * Z :=
  match fuel with
  | O => (result, start)
  | S fuel' =>
    if i <? size s then
      let c := to_char (at_ s i) in
      if (c =? QUOTE) || (c =? BACKSLASH) then
        let '(result, start) :=
          if start >=? 0
          then (result ++ substr s start (i - start), -1)
          else (result, start) in
        if c =? QUOTE then
          escape_loop fuel' s (i + 1) start (result ++ [BACKSLASH; QUOTE])
        else
          let '(run_len, j) := backslash_run (length s) s 1 (i + 1) in
          if j =? size s then
            (result ++ backslashes (run_len * 2), start)
          else if (j <? size s) && (at_ s j =? QUOTE) then
            escape_loop fuel' s (i + run_len + 1) start
              (result ++ backslashes (run_len * 2) ++ [BACKSLASH; QUOTE])
          else
            escape_loop fuel' s (i + (run_len - 1) + 1) start
              (result ++ backslashes run_len)
      else
        escape_loop fuel' s (i + 1) (if start <? 0 then i else start) result
    else (result, start)
  end.

Definition WindowsEscapeArg2 (s : wstring) : wstring :=
  match s with
  | [] => [QUOTE; QUOTE]
  | _ =>
    if negb (needs_escaping s) then s
    else
      let '(result, start) := escape_loop (length s) s 0 0 [QUOTE] in
      let result :=
        if negb (start =? -1) then result ++ substr_from s start
        else result in
      result ++ [QUOTE]
  end.

(** ** The diagnostic stream and process exit

    [PrintError] and [die] write to [stderr]; [die] then leaves the process
    with [exit(1)].  The world threaded through the effectful functions is
    the translation mode of [stderr], [-1] when it has none that
    [_setmode] could set, and what has been written to it.  A formatted
    message is kept as its format string and arguments. *)

Inductive chunk : Type :=
| Text (s : wstring)
| Formatted (format : wstring) (args : list wstring).

Record world : Type := mkWorld {
  stderr_mode : Z;
  stderr_out : list chunk
}.

(** What the C++ standard leaves undefined or turns into an exception, and
    the exhaustion of a loop's fuel in the model. *)
Inductive fault : Type :=
| ReadPastEnd        (* [s[i]] with [i > s.size()] *)
| SubstrOutOfRange   (* [s.substr(pos)] with [pos > s.size()] *)
| OutOfFuel.

Inductive outcome (A : Type) : Type :=
| Returned (a : A) (w : world)
| Exited (status : Z) (w : world)
| Faulted (f : fault).
Arguments Returned {A} a w.
Arguments Exited {A} status w.
Arguments Faulted {A} f.

Definition M (A : Type) : Type := world -> outcome A.

Definition ret {A : Type} (a : A) : M A := fun w => Returned a w.

Definition bind {A B : Type} (m : M A) (k : A -> M B) : M B :=
  fun w =>
    match m w with
    | Returned a w' => k a w'
    | Exited status w' => Exited status w'
    | Faulted f => Faulted f
    end.

Definition raise {A : Type} (f : fault) : M A := fun _ => Faulted f.

Declare Scope launcher_scope.
Delimit Scope launcher_scope with launcher.
Notation "x <- m ;; k" := (bind m (fun x => k))
  (at level 61, m at next level, right associativity) : launcher_scope.
Notation "' pat <- m ;; k" := (bind m (fun x => match x with pat => k end))
  (at level 61, pat pattern, m at next level, right associativity)
  : launcher_scope.
Notation "m ;;; k" := (bind m (fun _ => k))
  (at level 61, right associativity) : launcher_scope.
Local Open Scope launcher_scope.

Definition _O_U8TEXT : Z := 262144.

(** [_setmode(_fileno(stderr), mode)]: sets the mode and returns the old
    one; when it fails it returns [-1] and changes nothing.  It fails when
    [stderr] has no translation mode to set, which the world records as
    the mode [-1]. *)
Definition _setmode (mode : Z) : M Z :=
  fun w =>
    if stderr_mode w =? -1 then Returned (-1) w
    else Returned (stderr_mode w) (mkWorld mode (stderr_out w)).

Definition write (c : chunk) : M unit :=
  fun w => Returned tt (mkWorld (stderr_mode w) (stderr_out w ++ [c])).

Definition exit {A : Type} (status : Z) : M A := fun w => Exited status w.

Definition die {A : Type} (format : wstring) (args : list wstring) : M A :=
  _ <- _setmode _O_U8TEXT ;;
  write (Text (L "LAUNCHER ERROR: ")) ;;;
  write (Formatted format args) ;;;
  write (Text [10]) ;;;
  exit 1.

Definition PrintError (format : wstring) (args : list wstring) : M unit :=
  previous_mode <- _setmode _O_U8TEXT ;;
  write (Text (L "LAUNCHER ERROR: ")) ;;;
  write (Formatted format args) ;;;
  write (Text [10]) ;;;
  if negb (previous_mode =? -1)
  then (_ <- _setmode previous_mode ;; ret tt)
  else ret tt.

(** ** RelativeTo *)

(** [s[i]], guarded: reading past the terminator is a fault. *)
Definition read (s : wstring) (i : Z) : M wchar_t :=
  if (0 <=? i) && (i <=? size s) then ret (at_ s i) else raise ReadPastEnd.

(** [s.substr(pos)], which throws [std::out_of_range] when [pos > size]. *)
Definition substr_checked (s : wstring) (pos : Z) : M wstring :=
  if (0 <=? pos) && (pos <=? size s) then ret (substr_from s pos)
  else raise SubstrOutOfRange.

Definition mixed_message : wstring :=
  L "Cannot calculate relative path from an absolute and a non-absolute path."
  ++ [10] ++ L "path = %s" ++ [10] ++ L "base = %s".

Definition drives_message : wstring :=
  L "Cannot calculate relative path from absolute path under different drives."
  ++ [10] ++ L "path = %s" ++ [10] ++ L "base = %s".

Definition dotdot : wstring := L "..\".

(** [while (path[pos] == base[pos] && base[pos] != L'\0')] *)
Fixpoint match_loop (fuel : nat) (path base : wstring)
  (pos back_slash_pos : Z) : M (Z * Z) :=
  match fuel with
  | O => raise OutOfFuel
  | S fuel' =>
    p <- read path pos ;;
    b <- read base pos ;;
    if (p =? b) && negb (b =? NUL) then
      match_loop fuel' path base (pos + 1)
        (if p =? BACKSLASH then pos else back_slash_pos)
    else ret (pos, back_slash_pos)
  end.

(** The loop [for (int i = back_slash_pos + 1; i < base.length(); i++)]
    that appends one [dotdot] to [buffer] for every backslash of [base]. *)
Fixpoint ascent_loop (fuel : nat) (base : wstring) (i : Z)
  (buffer : wstring) : M wstring :=
  match fuel with
  | O => if i <? size base then raise OutOfFuel else ret buffer
  | S fuel' =>
    if i <? size base then
      b <- read base i ;;
      ascent_loop fuel' base (i + 1)
        (if b =? BACKSLASH then buffer ++ dotdot else buffer)
    else ret buffer
  end.

Section RelativeTo.

(** [blaze_util::IsAbsolute] is declared in
    [src/main/cpp/util/path_platform.h]; the function is a parameter here. *)
Variable IsAbsolute : wstring -> bool.

(** [result] is the string behind the out-parameter when the function is
    entered; the returned pair is the [bool] and the string behind it when
    the function returns. *)
Definition RelativeTo (path base result : wstring) : M (bool * wstring) :=
  if negb (Bool.eqb (IsAbsolute path) (IsAbsolute base)) then
    PrintError mixed_message [path; base] ;;;
    ret (false, result)
  else
    differ <-
      (if IsAbsolute path && IsAbsolute base then
         p0 <- read path 0 ;; b0 <- read base 0 ;; ret (negb (p0 =? b0))
       else ret false) ;;
    if differ then
      PrintError drives_message [path; base] ;;;
      ret (false, result)
    else
      '(pos, back_slash_pos) <-
         match_loop (S (length base)) path base 0 (-1) ;;
      b <- read base pos ;;
      p <- read path pos ;;
      if (b =? NUL) && (p =? NUL) then ret (true, [])
      else
        let back_slash_pos :=
          if ((b =? NUL) && (p =? BACKSLASH))
             || ((b =? BACKSLASH) && (p =? NUL))
          then pos else back_slash_pos in
        let buffer :=
          if back_slash_pos + 1 <? size base then dotdot else [] in
        buffer <-
          ascent_loop (length base) base (back_slash_pos + 1) buffer ;;
        buffer <-
          (if negb (back_slash_pos =? size path) then
             tail <- substr_checked path (back_slash_pos + 1) ;;
             ret (buffer ++ tail)
           else ret buffer) ;;
        ret (true, buffer).

End RelativeTo.

Module blaze_util.

Definition is_letter (c : wchar_t) : bool :=
  ((65 <=? c) && (c <=? 90)) || ((97 <=? c) && (c <=? 122)).

(** Modelled from the spec: [blaze_util::IsAbsolute] lives in
    [src/main/cpp/util/path_platform.cc], which is not part of the sources
    at hand.  The specification's data model says: an absolute path begins
    with a drive identifier, a single letter followed by a colon; a
    relative path does not. *)
Definition IsAbsolute (path : wstring) : bool :=
  match path with
  | c :: d :: _ => is_letter c && (d =? COLON)
  | _ => false
  end.

End blaze_util.

(** ** The native argv-splitting convention

    The decoder the quoting is written for is the argument splitter of the
    Microsoft C runtime (and of [CommandLineToArgvW]), as documented:
    arguments are delimited by white space, a space or a tab, outside a
    quoted part; [2n] backslashes before a quote give [n] backslashes and
    the quote opens or closes a quoted part; [2n+1] backslashes before a
    quote give [n] backslashes and a literal quote; backslashes before
    anything else stand for themselves.  It is a scan with the number of
    backslashes of the run being read as its only look-behind. *)

Record splitter : Type := mkSplitter {
  in_quotes : bool;
  pending : nat;                 (* backslashes of the current run *)
  current : option wstring;      (* the argument being built, if any *)
  finished : list wstring        (* the arguments completed so far *)
}.

Definition emit (cur : option wstring) (cs : wstring) : option wstring :=
  match cur with
  | Some a => Some (a ++ cs)
  | None => Some cs
  end.

Definition flush (n : nat) (cur : option wstring) : option wstring :=
  match n with
  | O => cur
  | _ => emit cur (repeat BACKSLASH n)
  end.

Definition close_arg (cur : option wstring) : list wstring :=
  match cur with
  | Some a => [a]
  | None => []
  end.

Definition split_step (st : splitter) (c : wchar_t) : splitter :=
  if c =? BACKSLASH then
    mkSplitter (in_quotes st) (S (pending st)) (current st) (finished st)
  else if c =? QUOTE then
    let cur := emit (current st) (repeat BACKSLASH (Nat.div2 (pending st))) in
    if Nat.odd (pending st)
    then mkSplitter (in_quotes st) O (emit cur [QUOTE]) (finished st)
    else mkSplitter (negb (in_quotes st)) O cur (finished st)
  else
    let cur := flush (pending st) (current st) in
    if ((c =? SPACE) || (c =? TAB)) && negb (in_quotes st)
    then mkSplitter false O None (finished st ++ close_arg cur)
    else mkSplitter (in_quotes st) O (emit cur [c]) (finished st).

Definition split_end (st : splitter) : list wstring :=
  finished st ++ close_arg (flush (pending st) (current st)).

Definition split_args (cmdline : wstring) : list wstring :=
  split_end (fold_left split_step cmdline (mkSplitter false O None [])).

(** A code unit that [char c = s[i]] cannot mistake: its low byte is that
    of a quote or of a backslash only when it is that character. *)
Definition narrows_faithfully (c : wchar_t) : bool :=
  implb (to_char c =? QUOTE) (c =? QUOTE)
  && implb (to_char c =? BACKSLASH) (c =? BACKSLASH).

(** ** Lexical resolution of a relative path

    [split_path] cuts a path at every backslash and [join_path] puts the
    backslashes back.  A path names a [location]: the volume it is on, when
    it starts with a drive identifier, and the segments below the root of
    that volume, or below the directory a relative path starts from.
    [resolve] walks the segments of a relative path from the location of
    [base]: an empty segment or [.] stays; [..] drops the last segment,
    stays at the root of a volume, and is kept when a relative location
    has nothing left to drop; any other segment, a drive identifier
    included, is appended.  The volume never changes. *)

Fixpoint split_path (s : wstring) : list wstring :=
  match s with
  | [] => [[]]
  | c :: rest =>
    if c =? BACKSLASH then [] :: split_path rest
    else match split_path rest with
         | seg :: segs => (c :: seg) :: segs
         | [] => [[c]]
         end
  end.

Fixpoint join_path (segs : list wstring) : wstring :=
  match segs with
  | [] => []
  | [seg] => seg
  | seg :: rest => seg ++ BACKSLASH :: join_path rest
  end.

Fixpoint wstring_eqb (a b : wstring) : bool :=
  match a, b with
  | [], [] => true
  | x :: a', y :: b' => (x =? y) && wstring_eqb a' b'
  | _, _ => false
  end.

Definition is_empty (s : wstring) : bool :=
  match s with [] => true | _ => false end.

(** A drive identifier: a single letter followed by a colon. *)
Definition is_drive (seg : wstring) : bool :=
  match seg with
  | [c; d] => blaze_util.is_letter c && (d =? COLON)
  | _ => false
  end.

Record location : Type := mkLocation {
  volume : option wstring;
  below : list wstring
}.

Definition non_empty_segments (segs : list wstring) : list wstring :=
  filter (fun seg => negb (is_empty seg)) segs.

Definition locate (s : wstring) : location :=
  match split_path s with
  | seg :: segs =>
    if is_drive seg then mkLocation (Some seg) (non_empty_segments segs)
    else mkLocation None (non_empty_segments (seg :: segs))
  | [] => mkLocation None []
  end.

(** A volume is written with the backslash of its root: [C:\], [C:\foo]. *)
Definition render (l : location) : wstring :=
  match volume l with
  | Some drive => drive ++ BACKSLASH :: join_path (below l)
  | None => join_path (below l)
  end.

Definition resolve_step (rooted : bool) (acc : list wstring) (seg : wstring)
  : list wstring :=
  if is_empty seg || wstring_eqb seg [DOT] then acc
  else if wstring_eqb seg [DOT; DOT] then
    match acc with
    | [] => if rooted then [] else [[DOT; DOT]]
    | _ =>
      if wstring_eqb (last acc []) [DOT; DOT] then acc ++ [[DOT; DOT]]
      else removelast acc
    end
  else acc ++ [seg].

Definition resolve (base rel : wstring) : wstring :=
  let l := locate base in
  let rooted := match volume l with Some _ => true | None => false end in
  render (mkLocation (volume l)
            (fold_left (resolve_step rooted) (split_path rel) (below l))).

(** A segment of a normalized path: not empty, neither [.] nor [..], and
    without the terminator. *)
Definition clean_segment (seg : wstring) : bool :=
  negb (is_empty seg)
  && negb (wstring_eqb seg [DOT])
  && negb (wstring_eqb seg [DOT; DOT])
  && forallb (fun c => negb (c =? NUL)) seg.

(** A normalized path, with backslash as its only separator.  An absolute
    one is a drive identifier, the backslash of its root and clean
    segments, none for the root itself: [C:\], [C:\foo\bar].  A relative
    one is empty (a directory relative to itself) or made of clean
    segments, and does not begin with a drive identifier.  Apart from the
    root of a volume no normalized path ends with a backslash (see the
    comment in [RelativeTo]: the last character of a normalized path won't
    be back slash). *)
Definition normalized (s : wstring) : bool :=
  match split_path s with
  | seg :: segs =>
    if is_drive seg then
      match segs with
      | [] => false
      | [[]] => true
      | _ => forallb clean_segment segs
      end
    else
      is_empty s
      || (negb (blaze_util.IsAbsolute s)
          && forallb clean_segment (seg :: segs))
  | [] => false
  end.

(** ** The loops of [RelativeTo] as list recursions

    The index loops above are related, in the properties below, to these
    recursions on what is left of the strings. *)

(** What [PrintError] appends to [stderr]. *)
Definition launcher_error (format : wstring) (args : list wstring)
  : list chunk :=
  [Text (L "LAUNCHER ERROR: "); Formatted format args; Text [10]].

(** The matching loop on the unread parts of [path] and [base]. *)
Fixpoint lockstep (path base : wstring) (pos back_slash_pos : Z) : Z * Z :=
  match path, base with
  | p :: path', b :: base' =>
    if (p =? b) && negb (b =? NUL)
    then lockstep path' base' (pos + 1)
           (if p =? BACKSLASH then pos else back_slash_pos)
    else (pos, back_slash_pos)
  | _, _ => (pos, back_slash_pos)
  end.

(** One [..\] for a backslash of [base], nothing for another character. *)
Definition ascent (b : wchar_t) : wstring :=
  if b =? BACKSLASH then dotdot else [].

(** The string [RelativeTo] computes once both checks have passed. *)
Definition relative_core (path base : wstring) : wstring :=
  let '(pos, back_slash_pos) := lockstep path base 0 (-1) in
  let b := at_ base pos in
  let p := at_ path pos in
  if (b =? NUL) && (p =? NUL) then []
  else
    let back_slash_pos :=
      if ((b =? NUL) && (p =? BACKSLASH)) || ((b =? BACKSLASH) && (p =? NUL))
      then pos else back_slash_pos in
    (if back_slash_pos + 1 <? size base then dotdot else [])
    ++ flat_map ascent (substr_from base (back_slash_pos + 1))
    ++ (if negb (back_slash_pos =? size path)
        then substr_from path (back_slash_pos + 1) else []).

(** The two checks of [RelativeTo]. *)
Definition mixed (IsAbsolute : wstring -> bool) (path base : wstring) : bool :=
  negb (Bool.eqb (IsAbsolute path) (IsAbsolute base)).

Definition different_drives (IsAbsolute : wstring -> bool)
  (path base : wstring) : bool :=
  IsAbsolute path && IsAbsolute base && negb (at_ path 0 =? at_ base 0).

(** The failure the specification names [InputMismatch]: the function
    returns [false] to its caller. *)
Definition InputMismatch (o : outcome (bool * wstring)) : Prop :=
  match o with
  | Returned (false, _) _ => True
  | _ => False
  end.

(** A process whose [stderr] is in text mode and has nothing written. *)
Definition _O_TEXT : Z := 16384.
Definition initial_world : world := mkWorld _O_TEXT [].

(** [n] ascents, [..\] written [n] times. *)
Definition dotdots (n : nat) : wstring := concat (repeat dotdot n).

(** The index of the last backslash of [pre], read from position [pos] on,
    or [back_slash_pos] when it holds none: what the matching loop does to
    [back_slash_pos] while it reads [pre]. *)
Fixpoint last_backslash (pre : wstring) (pos back_slash_pos : Z) : Z :=
  match pre with
  | [] => back_slash_pos
  | c :: pre' =>
    last_backslash pre' (pos + 1)
      (if c =? BACKSLASH then pos else back_slash_pos)
  end.

(** What follows the first segment in a joined path. *)
Definition sep_tail (segs : list wstring) : wstring :=
  match segs with
  | [] => []
  | _ => BACKSLASH :: join_path segs
  end.

(** The directory prefix of what follows the segments [segs]. *)
Definition dir_prefix (segs : list wstring) : wstring :=
  match segs with
  | [] => []
  | _ => join_path segs ++ [BACKSLASH]
  end.

(** A clean segment, as a proposition, with what [split_path] adds: it
    holds no backslash. *)
Definition seg_ok (seg : wstring) : Prop :=
  clean_segment seg = true /\ ~ In BACKSLASH seg.

(** ** The quoting loop as a recursion on the unread characters

    [escape_tail n s] is what the quoting loop writes for a run of [n]
    backslashes followed by [s], when no code unit is mistaken by the
    narrowing.  [close_segment] is the step after the loop: the segment
    still to be copied, if any. *)
Fixpoint escape_tail (n : nat) (s : wstring) : wstring :=
  match s with
  | [] => repeat BACKSLASH (2 * n)
  | c :: rest =>
    if c =? BACKSLASH then escape_tail (S n) rest
    else if c =? QUOTE then
      repeat BACKSLASH (2 * n) ++ [BACKSLASH; QUOTE] ++ escape_tail O rest
    else repeat BACKSLASH n ++ c :: escape_tail O rest
  end.

Definition close_segment (s : wstring) (st : wstring * Z) : wstring :=
  let '(result, start) := st in
  if negb (start =? -1) then result ++ substr_from s start else result.

(** What the splitter has read of the argument it is building. *)
Definition arg_text (st : splitter) : wstring :=
  match current st with
  | Some a => a
  | None => []
  end ++ repeat BACKSLASH (pending st).

Definition arg_started (st : splitter) : bool :=
  match current st with
  | Some _ => true
  | None => negb (Nat.eqb (pending st) O)
  end.

(** ** The remaining string functions of the file

    [std::wstring::npos] is the largest [size_t]; a search that finds
    nothing is [None] here, and the one place where the source computes
    with [npos], [find_last_of(...) + 1], has its wrap-around to [0]
    written out. *)

Definition npos : Z := 2 ^ 64 - 1.

(** [a + b] in [size_t]. *)
Definition size_t_add (a b : Z) : Z := (a + b) mod 2 ^ 64.

Fixpoint starts_with (pat s : wstring) : bool :=
  match pat, s with
  | [], _ => true
  | p :: pat', c :: s' => (p =? c) && starts_with pat' s'
  | _ :: _, [] => false
  end.

(** The first position at or after [idx] where [pat] occurs, [s] being
    the string from [idx] on. *)
Fixpoint find_in (pat s : wstring) (idx : Z) : option Z :=
  if starts_with pat s then Some idx
  else match s with
       | [] => None
       | _ :: s' => find_in pat s' (idx + 1)
       end.

(** [s.find(pat, pos)] *)
Definition find (s pat : wstring) (pos : Z) : option Z :=
  if pos <=? size s then find_in pat (substr_from s pos) pos else None.

(** [s.find_last_of(chars)]: the last position of [s] that holds one of
    [chars]. *)
Fixpoint find_last_of_from (chars s : wstring) (idx : Z) (found : option Z)
  : option Z :=
  match s with
  | [] => found
  | c :: s' =>
    find_last_of_from chars s' (idx + 1)
      (if existsb (Z.eqb c) chars then Some idx else found)
  end.

Definition find_last_of (s chars : wstring) : option Z :=
  find_last_of_from chars s 0 None.

(** [s.substr(pos, n)] for any [n]: at most [n] characters, and no more
    than the string has. *)
Definition substr_upto (s : wstring) (pos n : Z) : wstring :=
  substr s pos (Z.min n (size s - pos)).

Definition dot_exe : wstring := L ".exe".

Definition GetBinaryPathWithoutExtension (binary : wstring) : wstring :=
  if (size binary >=? 4)
     && match find binary dot_exe (size binary - 4) with
        | Some _ => true
        | None => false
        end
  then substr binary 0 (size binary - 4)
  else binary.

Definition GetBinaryPathWithExtension (binary : wstring) : wstring :=
  GetBinaryPathWithoutExtension binary ++ dot_exe.

Definition SLASH : wchar_t := 47.
Definition separators : wstring := [BACKSLASH; SLASH].

(** [path.substr(path.find_last_of(L"\\/") + 1)]; without a separator the
    sum is [npos + 1], which is [0] in [size_t]. *)
Definition GetBaseNameFromPath (path : wstring) : wstring :=
  substr_from path
    (match find_last_of path separators with
     | Some i => i + 1
     | None => size_t_add npos 1
     end).

(** [path.substr(0, path.find_last_of(L"\\/"))] *)
Definition GetParentDirFromPath (path : wstring) : wstring :=
  substr_upto path 0
    (match find_last_of path separators with
     | Some i => i
     | None => npos
     end).

(** ** GetRandomStr

    [rand_s] draws from the system's random source: the values it will
    produce are a parameter, and the number drawn so far is the state. *)

Definition alphabet : wstring :=
  L "ABCDEFGHIJKLMNOPQRSTUVWXYZabcdefghijklmnopqrstuvwxyz0123456789".

(** [wcslen]: the number of characters before the first terminator. *)
Fixpoint wcslen (s : wstring) : Z :=
  match s with
  | [] => 0
  | c :: s' => if c =? NUL then 0 else 1 + wcslen s'
  end.

Section Random.

Variable entropy : nat -> Z.

(** [rand_s(&x)], with [x] an [unsigned int]. *)
Definition rand_s (drawn : nat) : Z * nat :=
  (entropy drawn mod 2 ^ 32, S drawn).

(** [for (size_t i = 0; i < len; i++)], with [n] iterations left. *)
Fixpoint random_loop (n : nat) (rand_str : wstring) (drawn : nat)
  : wstring * nat :=
  match n with
  | O => (rand_str, drawn)
  | S n' =>
    let '(x, drawn) := rand_s drawn in
    random_loop n' (rand_str ++ [at_ alphabet (x mod wcslen alphabet)]) drawn
  end.

Definition GetRandomStr (len : nat) (drawn : nat) : wstring * nat :=
  random_loop len [] drawn.

End Random.

Definition is_alphanumeric (c : wchar_t) : bool :=
  ((48 <=? c) && (c <=? 57)) || blaze_util.is_letter c.

(** ** Existence checks

    The conversion [blaze_util::AsAbsoluteWindowsPath] and the system call
    [GetFileAttributesW] are parameters: the first gives the absolute path
    or an error text, the second the attributes of a path, a [DWORD]. *)

Definition INVALID_FILE_ATTRIBUTES : Z := 4294967295.
Definition FILE_ATTRIBUTE_DIRECTORY : Z := 16.

Section FileSystem.

Variable blaze_AsAbsoluteWindowsPath : wstring -> wstring + wstring.
Variable GetFileAttributesW : wstring -> Z.

Definition AsAbsoluteWindowsPath (path : wstring) : M wstring :=
  match blaze_AsAbsoluteWindowsPath path with
  | inl wpath => ret wpath
  | inr error =>
    die (L "Couldn't convert %s to absolute Windows path: %hs") [path; error]
  end.

Definition DoesFilePathExist (path : wstring) : M bool :=
  wpath <- AsAbsoluteWindowsPath path ;;
  let dwAttrib := GetFileAttributesW wpath in
  ret (negb (dwAttrib =? INVALID_FILE_ATTRIBUTES)
       && (Z.land dwAttrib FILE_ATTRIBUTE_DIRECTORY =? 0)).

Definition DoesDirectoryPathExist (path : wstring) : M bool :=
  wpath <- AsAbsoluteWindowsPath path ;;
  let dwAttrib := GetFileAttributesW wpath in
  ret (negb (dwAttrib =? INVALID_FILE_ATTRIBUTES)
       && negb (Z.land dwAttrib FILE_ATTRIBUTE_DIRECTORY =? 0)).

End FileSystem.

(** ** Reading the shell quoting back

    The reader [BashEscapeArg] writes for: a leading quote opens a quoted
    part that the last character closes, and a backslash stands for the
    character after it. *)

Fixpoint bash_unescape_body (s : wstring) : wstring :=
  match s with
  | [] => []
  | c :: rest =>
    if c =? BACKSLASH then
      match rest with
      | d :: rest' => d :: bash_unescape_body rest'
      | [] => []
      end
    else c :: bash_unescape_body rest
  end.

Definition bash_unescape (s : wstring) : wstring :=
  match s with
  | c :: rest =>
    if c =? QUOTE then bash_unescape_body (removelast rest)
    else bash_unescape_body s
  | [] => []
  end.

(** A string without a path separator, backslash or slash. *)
Definition no_separator (s : wstring) : Prop :=
  ~ In BACKSLASH s /\ ~ In SLASH s.

(** * Properties *)

(** ** Quoting: the early returns and the boundary cases *)

Lemma needs_escaping_false (s : wstring) :
  ~ In SPACE s -> ~ In QUOTE s -> needs_escaping s = false.
Proof.
  intros Hsp Hq. unfold needs_escaping.
  induction s as [|c s IH]; simpl; [reflexivity|].
  rewrite IH.
  - destruct (Z.eqb_spec c SPACE) as [->|_]; [exfalso; apply Hsp; left; reflexivity|].
    destruct (Z.eqb_spec c QUOTE) as [->|_]; [exfalso; apply Hq; left; reflexivity|].
    reflexivity.
  - intro H; apply Hsp; right; exact H.
  - intro H; apply Hq; right; exact H.
Qed.

(** C8: the empty string is quoted as two double-quote characters by
    [WindowsEscapeArg2] and by [BashEscapeArg] alike. *)
Theorem empty_argument_is_two_quotes :
  WindowsEscapeArg2 [] = [QUOTE; QUOTE] /\ BashEscapeArg [] = [QUOTE; QUOTE].
Proof. split; reflexivity. Qed.

(** C7, as stated, fails at the empty string: it holds no space and no
    quote, and is not returned unchanged. *)
Lemma empty_string_is_not_returned_unchanged :
  ~ (forall s : wstring,
        ~ In SPACE s -> ~ In QUOTE s -> WindowsEscapeArg2 s = s).
Proof.
  intro H. specialize (H [] (fun x => x) (fun x => x)). discriminate H.
Qed.

(** C7, amended: a non-empty string without a space and without a quote is
    returned unchanged, whatever else it holds. *)
Theorem unchanged_without_space_or_quote (s : wstring) :
  s <> [] -> ~ In SPACE s -> ~ In QUOTE s -> WindowsEscapeArg2 s = s.
Proof.
  intros Hne Hsp Hq. unfold WindowsEscapeArg2.
  destruct s as [|c s]; [contradiction Hne; reflexivity|].
  rewrite (needs_escaping_false _ Hsp Hq). reflexivity.
Qed.

Lemma unchanged_without_space_or_quote_witness :
  WindowsEscapeArg2 (L "a\\b\") = L "a\\b\".
Proof.
  apply unchanged_without_space_or_quote.
  - discriminate.
  - vm_compute. intuition discriminate.
  - vm_compute. intuition discriminate.
Defined.

(** C4, as stated, fails on its first case: [a\] holds no space and no
    quote, so it comes back as it is, not wrapped and not doubled. *)
Lemma unquoted_trailing_backslash_is_kept :
  ~ (WindowsEscapeArg2 (L "a\") = [QUOTE] ++ L "a\\" ++ [QUOTE]
     /\ WindowsEscapeArg2 (L "a\" ++ [QUOTE])
        = [QUOTE] ++ L "a\\\" ++ [QUOTE] ++ [QUOTE]
     /\ WindowsEscapeArg2 (L "a\b") = [QUOTE] ++ L "a\b" ++ [QUOTE]).
Proof. intros [H _]. vm_compute in H. discriminate H. Qed.

(** C4, amended: [a\] and [a\b] are returned unchanged, since they need no
    quoting; [a], backslash, quote becomes quote, [a], three backslashes,
    quote, quote; and once a space makes quoting necessary the stated
    forms appear: a trailing backslash is doubled before the closing
    quote, a backslash before an ordinary character is kept single. *)
Theorem backslash_boundary_cases :
  WindowsEscapeArg2 (L "a\") = L "a\"
  /\ WindowsEscapeArg2 (L "a\" ++ [QUOTE])
     = [QUOTE] ++ L "a\\\" ++ [QUOTE] ++ [QUOTE]
  /\ WindowsEscapeArg2 (L "a\b") = L "a\b"
  /\ WindowsEscapeArg2 (L "a \") = [QUOTE] ++ L "a \\" ++ [QUOTE]
  /\ WindowsEscapeArg2 (L "a \b") = [QUOTE] ++ L "a \b" ++ [QUOTE].
Proof. repeat split; reflexivity. Qed.

(** ** RelativeTo: the effect of [PrintError] *)

Lemma PrintError_returns (format : wstring) (args : list wstring) (w : world) :
  exists mode,
    PrintError format args w
    = Returned tt (mkWorld mode (stderr_out w ++ launcher_error format args)).
Proof.
  unfold PrintError, bind, _setmode, write, ret, launcher_error.
  destruct (stderr_mode w =? -1) eqn:E; simpl; rewrite ?E; simpl;
    repeat rewrite <- app_assoc; simpl; eexists; reflexivity.
Qed.

Lemma die_exits (A : Type) (format : wstring) (args : list wstring) (w : world) :
  exists w', @die A format args w = Exited 1 w'.
Proof.
  unfold die, bind, _setmode, write, exit.
  destruct (stderr_mode w =? -1); simpl; eexists; reflexivity.
Qed.

(** ** RelativeTo: the loops *)

Lemma size_app (a b : wstring) : size (a ++ b) = size a + size b.
Proof. unfold size. rewrite length_app. lia. Qed.

Lemma size_nonneg (s : wstring) : 0 <= size s.
Proof. unfold size. lia. Qed.

Lemma at_app (pre x : wstring) : at_ (pre ++ x) (size pre) = hd NUL x.
Proof.
  unfold at_, size. rewrite Nat2Z.id, app_nth2 by lia.
  rewrite Nat.sub_diag. destruct x; reflexivity.
Qed.

Lemma at_size (s : wstring) : at_ s (size s) = NUL.
Proof. rewrite <- (app_nil_r s) at 1. apply at_app. Qed.

Lemma read_in_range (s : wstring) (i : Z) (w : world) :
  0 <= i <= size s -> read s i w = Returned (at_ s i) w.
Proof.
  intros [H1 H2]. unfold read.
  destruct (Z.leb_spec 0 i); [|lia]. destruct (Z.leb_spec i (size s)); [|lia].
  reflexivity.
Qed.

Lemma read_app (pre x : wstring) (w : world) :
  read (pre ++ x) (size pre) w = Returned (hd NUL x) w.
Proof.
  rewrite read_in_range, at_app; [reflexivity|].
  rewrite size_app. pose proof (size_nonneg pre). pose proof (size_nonneg x). lia.
Qed.

Lemma size_snoc (pre : wstring) (c : wchar_t) : size (pre ++ [c]) = size pre + 1.
Proof. rewrite size_app. reflexivity. Qed.

Lemma match_loop_lockstep (fuel : nat) :
  forall (pp bp ps bs : wstring) (bsp : Z) (w : world),
    length pp = length bp -> (length bs < fuel)%nat ->
    match_loop fuel (pp ++ ps) (bp ++ bs) (size pp) bsp w
    = Returned (lockstep ps bs (size pp) bsp) w.
Proof.
  induction fuel as [|fuel IH]; intros pp bp ps bs bsp w Hlen Hfuel; [lia|].
  assert (Hsz : size pp = size bp) by (unfold size; congruence).
  cbn [match_loop]. unfold bind at 1. rewrite read_app.
  unfold bind at 1. rewrite Hsz, read_app, <- Hsz.
  destruct ps as [|p ps]; destruct bs as [|b bs]; cbn [hd lockstep].
  - reflexivity.
  - replace ((NUL =? b) && negb (b =? NUL)) with false; [reflexivity|].
    unfold NUL. rewrite (Z.eqb_sym 0 b). destruct (b =? 0); reflexivity.
  - rewrite Z.eqb_refl, andb_false_r. reflexivity.
  - destruct ((p =? b) && negb (b =? NUL)); [|reflexivity].
    rewrite <- (size_snoc pp p).
    replace (pp ++ p :: ps) with ((pp ++ [p]) ++ ps)
      by (rewrite <- app_assoc; reflexivity).
    replace (bp ++ b :: bs) with ((bp ++ [b]) ++ bs)
      by (rewrite <- app_assoc; reflexivity).
    rewrite IH.
    + rewrite size_snoc. reflexivity.
    + rewrite !length_app. simpl. lia.
    + simpl in Hfuel. lia.
Qed.

Lemma lockstep_bounds (ps : wstring) :
  forall (bs : wstring) (pos bsp pos' bsp' : Z),
    lockstep ps bs pos bsp = (pos', bsp') ->
    pos <= pos' <= pos + size ps /\ pos' <= pos + size bs
    /\ (bsp' = bsp \/ pos <= bsp' < pos').
Proof.
  induction ps as [|p ps IH]; intros bs pos bsp pos' bsp' H.
  - simpl in H. injection H as <- <-. pose proof (size_nonneg bs).
    unfold size; simpl. lia.
  - destruct bs as [|b bs]; simpl in H.
    + injection H as <- <-. unfold size; simpl. lia.
    + destruct ((p =? b) && negb (b =? NUL)).
      * apply IH in H. unfold size in *. simpl length.
        destruct (p =? BACKSLASH); lia.
      * injection H as <- <-. unfold size; simpl. lia.
Qed.

Lemma ascent_loop_flat_map (fuel : nat) :
  forall (bp bs buffer : wstring) (w : world),
    (length bs <= fuel)%nat ->
    ascent_loop fuel (bp ++ bs) (size bp) buffer w
    = Returned (buffer ++ flat_map ascent bs) w.
Proof.
  induction fuel as [|fuel IH]; intros bp bs buffer w Hfuel.
  - destruct bs; [|simpl in Hfuel; lia].
    cbn [ascent_loop flat_map]. rewrite !app_nil_r.
    destruct (Z.ltb_spec (size bp) (size bp)); [lia|reflexivity].
  - cbn [ascent_loop]. destruct bs as [|b bs].
    + cbn [flat_map]. rewrite !app_nil_r.
      destruct (Z.ltb_spec (size bp) (size bp)); [lia|reflexivity].
    + destruct (Z.ltb_spec (size bp) (size (bp ++ b :: bs))) as [_|H].
      2:{ rewrite size_app in H. unfold size in H. simpl in H. lia. }
      unfold bind. rewrite read_app. cbn [hd].
      rewrite <- (size_snoc bp b).
      replace (bp ++ b :: bs) with ((bp ++ [b]) ++ bs)
        by (rewrite <- app_assoc; reflexivity).
      rewrite IH by (simpl in Hfuel; lia).
      cbn [flat_map]. unfold ascent at 2.
      destruct (b =? BACKSLASH); rewrite <- ?app_assoc; reflexivity.
Qed.

Lemma ascent_loop_past_end (fuel : nat) (base buffer : wstring) (i : Z)
  (w : world) :
  size base <= i -> ascent_loop fuel base i buffer w = Returned buffer w.
Proof.
  intro H. destruct fuel; cbn [ascent_loop];
    destruct (Z.ltb_spec i (size base)); try lia; reflexivity.
Qed.

Lemma ascent_loop_from (base buffer : wstring) (i : Z) (w : world) :
  0 <= i ->
  ascent_loop (length base) base i buffer w
  = Returned (buffer ++ flat_map ascent (substr_from base i)) w.
Proof.
  intro Hi. unfold substr_from.
  destruct (Z.le_gt_cases (size base) i) as [Hge|Hlt].
  - rewrite ascent_loop_past_end by exact Hge.
    rewrite skipn_all2 by (unfold size in Hge; lia).
    simpl. rewrite app_nil_r. reflexivity.
  - assert (Hsz : size (firstn (Z.to_nat i) base) = i).
    { unfold size in *. rewrite length_firstn. lia. }
    pose proof (ascent_loop_flat_map (length base) (firstn (Z.to_nat i) base)
                  (skipn (Z.to_nat i) base) buffer w) as H.
    rewrite firstn_skipn, Hsz in H. apply H.
    rewrite length_skipn. lia.
Qed.

(** ** RelativeTo: the three ways out *)

Lemma RelativeTo_cases (IsAbsolute : wstring -> bool)
  (path base result : wstring) (w : world) :
  RelativeTo IsAbsolute path base result w =
  if mixed IsAbsolute path base then
    (PrintError mixed_message [path; base] ;;; ret (false, result)) w
  else if different_drives IsAbsolute path base then
    (PrintError drives_message [path; base] ;;; ret (false, result)) w
  else Returned (true, relative_core path base) w.
Proof.
  unfold RelativeTo, mixed, different_drives.
  destruct (negb (Bool.eqb (IsAbsolute path) (IsAbsolute base)));
    [reflexivity|].
  unfold bind at 1.
  assert (Hdiff :
    (if IsAbsolute path && IsAbsolute base
     then p0 <- read path 0 ;; b0 <- read base 0 ;; ret (negb (p0 =? b0))
     else ret false) w
    = Returned (IsAbsolute path && IsAbsolute base
                && negb (at_ path 0 =? at_ base 0)) w).
  { destruct (IsAbsolute path && IsAbsolute base); [|reflexivity].
    unfold bind.
    rewrite !read_in_range by (split; [lia|apply size_nonneg]).
    reflexivity. }
  rewrite Hdiff. clear Hdiff.
  destruct (IsAbsolute path && IsAbsolute base
            && negb (at_ path 0 =? at_ base 0)); [reflexivity|].
  unfold bind at 1.
  pose proof (match_loop_lockstep (S (length base)) [] [] path base (-1) w
                eq_refl (Nat.lt_succ_diag_r _)) as Hloop.
  simpl app in Hloop. change (size []) with 0 in Hloop. rewrite Hloop.
  unfold relative_core.
  destruct (lockstep path base 0 (-1)) as [pos bsp] eqn:Hls.
  apply lockstep_bounds in Hls. destruct Hls as (Hp & Hb & Hbsp).
  unfold bind at 1. rewrite read_in_range by lia.
  unfold bind at 1. rewrite read_in_range by lia.
  destruct ((at_ base pos =? NUL) && (at_ path pos =? NUL)); [reflexivity|].
  set (bsp' := if ((at_ base pos =? NUL) && (at_ path pos =? BACKSLASH))
                  || ((at_ base pos =? BACKSLASH) && (at_ path pos =? NUL))
               then pos else bsp).
  assert (Hbsp' : -1 <= bsp' <= pos).
  { subst bsp'.
    destruct (((at_ base pos =? NUL) && (at_ path pos =? BACKSLASH))
              || ((at_ base pos =? BACKSLASH) && (at_ path pos =? NUL))); lia. }
  unfold bind at 1. rewrite ascent_loop_from by lia.
  unfold bind at 1.
  destruct (Z.eqb_spec bsp' (size path)) as [Heq|Hne]; cbn [negb].
  - unfold ret. rewrite app_nil_r. reflexivity.
  - unfold bind, substr_checked.
    destruct (Z.leb_spec 0 (bsp' + 1)); [|lia].
    destruct (Z.leb_spec (bsp' + 1) (size path)); [|lia].
    cbn [andb]. unfold ret. rewrite app_assoc. reflexivity.
Qed.

Lemma RelativeTo_failure (IsAbsolute : wstring -> bool)
  (path base result : wstring) (w : world) :
  mixed IsAbsolute path base || different_drives IsAbsolute path base = true ->
  exists mode,
    RelativeTo IsAbsolute path base result w
    = Returned (false, result)
        (mkWorld mode
           (stderr_out w
            ++ launcher_error
                 (if mixed IsAbsolute path base
                  then mixed_message else drives_message) [path; base])).
Proof.
  intro H. rewrite RelativeTo_cases.
  destruct (mixed IsAbsolute path base).
  - destruct (PrintError_returns mixed_message [path; base] w) as [mode E].
    exists mode. unfold bind. rewrite E. reflexivity.
  - simpl in H. rewrite H.
    destruct (PrintError_returns drives_message [path; base] w) as [mode E].
    exists mode. unfold bind. rewrite E. reflexivity.
Qed.

Lemma RelativeTo_success (IsAbsolute : wstring -> bool)
  (path base result : wstring) (w : world) :
  mixed IsAbsolute path base || different_drives IsAbsolute path base = false ->
  RelativeTo IsAbsolute path base result w
  = Returned (true, relative_core path base) w.
Proof.
  intro H. apply orb_false_elim in H. destruct H as [H1 H2].
  rewrite RelativeTo_cases, H1, H2. reflexivity.
Qed.

(** ** RelativeTo: the examples *)

(** C3, as stated, fails on its third example: for [C:\foo] against
    [C:\foo\bar] the function returns the three characters [..\], not the
    two characters [..]. *)
Lemma ascent_to_ancestor_ends_with_backslash :
  ~ (RelativeTo blaze_util.IsAbsolute (L "C:\foo\bar1") (L "C:\foo\bar2") []
       initial_world = Returned (true, L "..\bar1") initial_world
     /\ RelativeTo blaze_util.IsAbsolute (L "C:\foo\bar") (L "C:\foo") []
          initial_world = Returned (true, L "bar") initial_world
     /\ RelativeTo blaze_util.IsAbsolute (L "C:\foo") (L "C:\foo\bar") []
          initial_world = Returned (true, L "..") initial_world
     /\ RelativeTo blaze_util.IsAbsolute (L "C:\foo") (L "C:\foo") []
          initial_world = Returned (true, []) initial_world).
Proof. intros (_ & _ & H & _). vm_compute in H. discriminate H. Qed.

(** C3, amended: the four examples, where the ascent from [C:\foo\bar] to
    [C:\foo] is the string [..\], with the backslash every ascent is
    written with.  They hold whatever [result] and [stderr] held before. *)
Theorem RelativeTo_examples (result : wstring) (w : world) :
  RelativeTo blaze_util.IsAbsolute (L "C:\foo\bar1") (L "C:\foo\bar2") result w
  = Returned (true, L "..\bar1") w
  /\ RelativeTo blaze_util.IsAbsolute (L "C:\foo\bar") (L "C:\foo") result w
     = Returned (true, L "bar") w
  /\ RelativeTo blaze_util.IsAbsolute (L "C:\foo") (L "C:\foo\bar") result w
     = Returned (true, L "..\") w
  /\ RelativeTo blaze_util.IsAbsolute (L "C:\foo") (L "C:\foo") result w
     = Returned (true, []) w.
Proof. repeat split; rewrite RelativeTo_success; reflexivity. Qed.

(** ** RelativeTo: failures *)

Lemma mixed_iff (IsAbsolute : wstring -> bool) (path base : wstring) :
  mixed IsAbsolute path base = true <-> IsAbsolute path <> IsAbsolute base.
Proof.
  unfold mixed. destruct (IsAbsolute path), (IsAbsolute base); simpl;
    split; congruence.
Qed.

Lemma different_drives_iff (IsAbsolute : wstring -> bool) (path base : wstring) :
  different_drives IsAbsolute path base = true
  <-> IsAbsolute path = true /\ IsAbsolute base = true
      /\ at_ path 0 <> at_ base 0.
Proof.
  unfold different_drives.
  destruct (IsAbsolute path), (IsAbsolute base); simpl;
    try (split; [discriminate | intros (? & ? & ?); discriminate]).
  destruct (Z.eqb_spec (at_ path 0) (at_ base 0)); simpl; split;
    try discriminate; tauto.
Qed.

Lemma InputMismatch_of_failure (IsAbsolute : wstring -> bool)
  (path base result : wstring) (w : world) :
  mixed IsAbsolute path base || different_drives IsAbsolute path base = true ->
  InputMismatch (RelativeTo IsAbsolute path base result w).
Proof.
  intro H. destruct (RelativeTo_failure IsAbsolute path base result w H)
    as [mode E].
  rewrite E. exact I.
Qed.

(** C6: [RelativeTo] fails when exactly one of [path] and [base] is
    absolute, and when both are absolute with different drive identifiers
    (first characters); in particular [C:\foo] against [bar], and [C:\foo]
    against [D:\foo]. *)
Theorem RelativeTo_input_mismatch :
  (forall (IsAbsolute : wstring -> bool) (path base result : wstring)
          (w : world),
      IsAbsolute path <> IsAbsolute base ->
      InputMismatch (RelativeTo IsAbsolute path base result w))
  /\ (forall (IsAbsolute : wstring -> bool) (path base result : wstring)
             (w : world),
         IsAbsolute path = true -> IsAbsolute base = true ->
         at_ path 0 <> at_ base 0 ->
         InputMismatch (RelativeTo IsAbsolute path base result w))
  /\ (forall (result : wstring) (w : world),
         InputMismatch
           (RelativeTo blaze_util.IsAbsolute (L "C:\foo") (L "bar") result w))
  /\ (forall (result : wstring) (w : world),
         InputMismatch
           (RelativeTo blaze_util.IsAbsolute (L "C:\foo") (L "D:\foo")
              result w)).
Proof.
  repeat split.
  - intros IsAbsolute path base result w H.
    apply InputMismatch_of_failure. apply mixed_iff in H. rewrite H. reflexivity.
  - intros IsAbsolute path base result w Hp Hb Hd.
    apply InputMismatch_of_failure.
    apply orb_true_iff. right. apply different_drives_iff. tauto.
  - intros result w. apply InputMismatch_of_failure. reflexivity.
  - intros result w. apply InputMismatch_of_failure. reflexivity.
Qed.

Lemma RelativeTo_input_mismatch_witness :
  InputMismatch
    (RelativeTo blaze_util.IsAbsolute (L "bar") (L "c:\foo") [] initial_world)
  /\ InputMismatch
       (RelativeTo blaze_util.IsAbsolute (L "c:\foo") (L "C:\foo") []
          initial_world).
Proof.
  destruct RelativeTo_input_mismatch as (Hmixed & Hdrives & _ & _). split.
  - apply Hmixed. vm_compute. discriminate.
  - apply Hdrives.
    + reflexivity.
    + reflexivity.
    + vm_compute. discriminate.
Defined.

(** C9: when [RelativeTo] returns [false], the string behind [result] is
    the one it held on entry. *)
Theorem RelativeTo_failure_keeps_result (IsAbsolute : wstring -> bool)
  (path base result r : wstring) (w w' : world) :
  RelativeTo IsAbsolute path base result w = Returned (false, r) w' ->
  r = result.
Proof.
  intro H.
  destruct (mixed IsAbsolute path base || different_drives IsAbsolute path base)
    eqn:E.
  - destruct (RelativeTo_failure IsAbsolute path base result w E) as [mode E'].
    rewrite E' in H. congruence.
  - rewrite (RelativeTo_success IsAbsolute path base result w E) in H.
    discriminate H.
Qed.

Lemma RelativeTo_failure_keeps_result_witness :
  L "previous" = L "previous".
Proof.
  apply (RelativeTo_failure_keeps_result blaze_util.IsAbsolute
           (L "C:\foo") (L "D:\foo") (L "previous") (L "previous")
           initial_world
           (mkWorld _O_TEXT
              (launcher_error drives_message [L "C:\foo"; L "D:\foo"]))).
  reflexivity.
Defined.

(** C5, as stated, fails: on an invalid pair the function does write to
    [stderr], through [PrintError], before it returns. *)
Lemma mismatch_is_reported_on_stderr :
  ~ (forall (path base result : wstring) (w : world),
        blaze_util.IsAbsolute path <> blaze_util.IsAbsolute base ->
        exists w',
          RelativeTo blaze_util.IsAbsolute path base result w
          = Returned (false, result) w'
          /\ stderr_out w' = stderr_out w).
Proof.
  intro H.
  destruct (H (L "C:\foo") (L "bar") [] initial_world) as (w' & E & Hout).
  - vm_compute. discriminate.
  - vm_compute in E. injection E as <-. discriminate Hout.
Qed.

(** C5, amended: on every invalid pair, mixed or on different drives,
    [RelativeTo] returns [false] to its caller, with [result] untouched; it
    neither exits nor faults; and it has appended to [stderr] one launcher
    error that names both paths. *)
Theorem RelativeTo_failure_returns_and_reports (IsAbsolute : wstring -> bool)
  (path base result : wstring) (w : world) :
  mixed IsAbsolute path base || different_drives IsAbsolute path base = true ->
  exists w',
    RelativeTo IsAbsolute path base result w = Returned (false, result) w'
    /\ stderr_out w'
       = stderr_out w
         ++ launcher_error
              (if mixed IsAbsolute path base
               then mixed_message else drives_message) [path; base].
Proof.
  intro H.
  destruct (RelativeTo_failure IsAbsolute path base result w H) as [mode E].
  eexists. split; [exact E | reflexivity].
Qed.

Lemma RelativeTo_failure_returns_and_reports_witness :
  exists w',
    RelativeTo blaze_util.IsAbsolute (L "C:\foo") (L "bar") [] initial_world
    = Returned (false, []) w'
    /\ stderr_out w'
       = launcher_error mixed_message [L "C:\foo"; L "bar"].
Proof.
  apply (RelativeTo_failure_returns_and_reports blaze_util.IsAbsolute
           (L "C:\foo") (L "bar") [] initial_world).
  reflexivity.
Defined.

(** ** RelativeTo: the lockstep scan stays inside both strings *)

Lemma at_cons (c : wchar_t) (s : wstring) (i : Z) :
  0 < i -> at_ (c :: s) i = at_ s (i - 1).
Proof.
  intro H. unfold at_.
  replace (Z.to_nat i) with (S (Z.to_nat (i - 1))) by lia. reflexivity.
Qed.

Lemma lockstep_stops (ps : wstring) :
  forall (bs : wstring) (pos bsp pos' bsp' : Z),
    lockstep ps bs pos bsp = (pos', bsp') ->
    (at_ ps (pos' - pos) <> at_ bs (pos' - pos) \/ at_ bs (pos' - pos) = NUL)
    /\ (forall i, 0 <= i < pos' - pos ->
                  at_ ps i = at_ bs i /\ at_ bs i <> NUL).
Proof.
  induction ps as [|p ps IH]; intros bs pos bsp pos' bsp' H.
  - simpl in H. injection H as <- <-. rewrite Z.sub_diag. split; [|intros; lia].
    destruct bs as [|b bs]; [right; reflexivity|].
    destruct (Z.eq_dec b NUL) as [->|Hb]; [right; reflexivity|].
    left. unfold at_; simpl. congruence.
  - destruct bs as [|b bs]; simpl in H.
    + injection H as <- <-. rewrite Z.sub_diag. split; [|intros; lia].
      right; reflexivity.
    + destruct (Z.eqb_spec p b) as [->|Hpb]; simpl in H.
      * destruct (Z.eqb_spec b NUL) as [->|Hb]; simpl in H.
        -- injection H as <- <-. rewrite Z.sub_diag. split; [|intros; lia].
           right; reflexivity.
        -- pose proof (lockstep_bounds _ _ _ _ _ _ H) as (Hp & _).
           apply IH in H. destruct H as [Hstop Hmatch].
           replace (pos' - (pos + 1)) with (pos' - pos - 1) in * by lia.
           split.
           ++ rewrite !at_cons by lia. exact Hstop.
           ++ intros i Hi. destruct (Z.eq_dec i 0) as [->|Hi0].
              ** unfold at_; simpl. split; [reflexivity|exact Hb].
              ** rewrite !at_cons by lia. apply Hmatch. lia.
      * injection H as <- <-. rewrite Z.sub_diag. split; [|intros; lia].
        left. unfold at_; simpl. exact Hpb.
Qed.

(** C10: the matching loop of [RelativeTo], run with guarded indexing from
    [pos = 0], returns: no read faults and the fuel [size base + 1] is
    enough.  It leaves [pos] at most the length of either string, at the
    first position where the characters differ or [base] has its
    terminator, every earlier position holding the same non-null character
    in both strings; and [RelativeTo] as a whole, on any input, returns
    without a fault or an exit. *)
Theorem match_loop_in_bounds (path base : wstring) (w : world) :
  (exists pos back_slash_pos : Z,
      match_loop (S (length base)) path base 0 (-1) w
      = Returned (pos, back_slash_pos) w
      /\ 0 <= pos <= size path /\ pos <= size base
      /\ -1 <= back_slash_pos < pos
      /\ (at_ path pos <> at_ base pos \/ at_ base pos = NUL)
      /\ (forall i, 0 <= i < pos -> at_ path i = at_ base i /\ at_ base i <> NUL))
  /\ (forall (IsAbsolute : wstring -> bool) (result : wstring),
         exists (ok : bool) (r : wstring) (w' : world),
           RelativeTo IsAbsolute path base result w = Returned (ok, r) w').
Proof.
  split.
  - pose proof (match_loop_lockstep (S (length base)) [] [] path base (-1) w
                  eq_refl (Nat.lt_succ_diag_r _)) as Hloop.
    simpl app in Hloop. change (size []) with 0 in Hloop.
    destruct (lockstep path base 0 (-1)) as [pos bsp] eqn:Hls.
    exists pos, bsp.
    pose proof (lockstep_bounds _ _ _ _ _ _ Hls) as (Hp & Hb & Hbsp).
    pose proof (lockstep_stops _ _ _ _ _ _ Hls) as (Hstop & Hmatch).
    rewrite Z.sub_0_r in Hstop, Hmatch.
    repeat split; try lia; assumption || apply Hmatch; assumption.
  - intros IsAbsolute result.
    destruct (mixed IsAbsolute path base
              || different_drives IsAbsolute path base) eqn:E.
    + destruct (RelativeTo_failure IsAbsolute path base result w E) as [mode E'].
      rewrite E'. eexists _, _, _. reflexivity.
    + rewrite (RelativeTo_success IsAbsolute path base result w E).
      eexists _, _, _. reflexivity.
Qed.

Lemma match_loop_in_bounds_witness :
  exists pos back_slash_pos : Z,
    match_loop 12 (L "C:\foo\bar1") (L "C:\foo\bar2") 0 (-1) initial_world
    = Returned (pos, back_slash_pos) initial_world
    /\ pos <= 11.
Proof.
  destruct (match_loop_in_bounds (L "C:\foo\bar1") (L "C:\foo\bar2")
              initial_world) as [(pos & bsp & E & Hp & Hb & _) _].
  exists pos, bsp. split; [exact E | exact Hb].
Defined.

(** ** Paths as segments *)

Lemma split_path_nonempty (s : wstring) : split_path s <> [].
Proof.
  destruct s as [|c s]; simpl; [discriminate|].
  destruct (c =? BACKSLASH); [discriminate|].
  destruct (split_path s); discriminate.
Qed.

Lemma join_path_cons (seg : wstring) (segs : list wstring) :
  join_path (seg :: segs) = seg ++ sep_tail segs.
Proof. destruct segs; simpl; [rewrite app_nil_r|]; reflexivity. Qed.

Lemma join_split (s : wstring) : join_path (split_path s) = s.
Proof.
  induction s as [|c s IH]; [reflexivity|].
  cbn [split_path]. pose proof (split_path_nonempty s) as Hne.
  destruct (Z.eqb_spec c BACKSLASH) as [->|_].
  - rewrite join_path_cons. destruct (split_path s) as [|seg segs];
      [contradiction Hne; reflexivity|].
    unfold sep_tail. rewrite IH. reflexivity.
  - destruct (split_path s) as [|seg segs]; [contradiction Hne; reflexivity|].
    rewrite join_path_cons in *. simpl. rewrite IH. reflexivity.
Qed.

Lemma split_path_no_backslash (s : wstring) :
  Forall (fun seg => ~ In BACKSLASH seg) (split_path s).
Proof.
  induction s as [|c s IH]; simpl.
  - constructor; [intros []|constructor].
  - destruct (Z.eqb_spec c BACKSLASH) as [->|Hc].
    + constructor; [intros []|exact IH].
    + destruct (split_path s) as [|seg segs].
      * constructor; [|constructor]. intros [H|[]]. congruence.
      * inversion IH as [|? ? Hseg Hsegs]; subst.
        constructor; [|exact Hsegs]. intros [H|H]; [congruence|auto].
Qed.

Lemma split_path_segment (seg rest : wstring) :
  ~ In BACKSLASH seg ->
  split_path (seg ++ BACKSLASH :: rest) = seg :: split_path rest.
Proof.
  induction seg as [|c seg IH]; intro H; simpl.
  - reflexivity.
  - destruct (Z.eqb_spec c BACKSLASH) as [->|_];
      [exfalso; apply H; left; reflexivity|].
    rewrite IH by (intro; apply H; right; assumption). reflexivity.
Qed.

Lemma split_path_single (seg : wstring) :
  ~ In BACKSLASH seg -> split_path seg = [seg].
Proof.
  induction seg as [|c seg IH]; intro H; simpl; [reflexivity|].
  destruct (Z.eqb_spec c BACKSLASH) as [->|_];
    [exfalso; apply H; left; reflexivity|].
  rewrite IH by (intro; apply H; right; assumption). reflexivity.
Qed.

Lemma split_join (segs : list wstring) :
  segs <> [] -> Forall (fun seg => ~ In BACKSLASH seg) segs ->
  split_path (join_path segs) = segs.
Proof.
  induction segs as [|seg segs IH]; intros Hne Hall; [contradiction Hne; reflexivity|].
  inversion Hall as [|? ? Hseg Hsegs]; subst.
  destruct segs as [|seg' segs].
  - simpl. apply split_path_single, Hseg.
  - change (join_path (seg :: seg' :: segs))
      with (seg ++ BACKSLASH :: join_path (seg' :: segs)).
    rewrite split_path_segment by exact Hseg.
    rewrite IH; [reflexivity|discriminate|exact Hsegs].
Qed.

Lemma join_path_app (cs segs : list wstring) :
  segs <> [] -> join_path (cs ++ segs) = dir_prefix cs ++ join_path segs.
Proof.
  intro Hne. induction cs as [|c cs IH]; [reflexivity|].
  destruct cs as [|c' cs].
  - simpl. destruct segs; [contradiction Hne; reflexivity|].
    rewrite <- app_assoc. reflexivity.
  - change (join_path ((c :: c' :: cs) ++ segs))
      with (c ++ BACKSLASH :: join_path ((c' :: cs) ++ segs)).
    rewrite IH. unfold dir_prefix.
    change (join_path (c :: c' :: cs))
      with (c ++ BACKSLASH :: join_path (c' :: cs)).
    rewrite <- !app_assoc. reflexivity.
Qed.

(** ** The result of [RelativeTo] on a common prefix *)

Lemma lockstep_common (pre : wstring) :
  forall (x y : wstring) (pos bsp : Z),
    ~ In NUL pre ->
    lockstep (pre ++ x) (pre ++ y) pos bsp
    = lockstep x y (pos + size pre) (last_backslash pre pos bsp).
Proof.
  induction pre as [|c pre IH]; intros x y pos bsp Hnul.
  - simpl. change (size []) with 0. rewrite Z.add_0_r. reflexivity.
  - cbn [app lockstep last_backslash]. rewrite Z.eqb_refl.
    destruct (Z.eqb_spec c NUL) as [->|_];
      [exfalso; apply Hnul; left; reflexivity|].
    cbn [negb andb]. rewrite IH by (intro; apply Hnul; right; assumption).
    f_equal. unfold size. simpl length. lia.
Qed.

Lemma lockstep_stops_at_once (x y : wstring) (pos bsp : Z) :
  hd NUL x <> hd NUL y -> lockstep x y pos bsp = (pos, bsp).
Proof.
  intro H. destruct x as [|p x]; [reflexivity|].
  destruct y as [|b y]; [reflexivity|].
  simpl in *. destruct (Z.eqb_spec p b); [contradiction|reflexivity].
Qed.

Lemma last_backslash_none (m : wstring) :
  forall pos bsp, ~ In BACKSLASH m -> last_backslash m pos bsp = bsp.
Proof.
  induction m as [|c m IH]; intros pos bsp H; [reflexivity|].
  simpl. destruct (Z.eqb_spec c BACKSLASH) as [->|_];
    [exfalso; apply H; left; reflexivity|].
  apply IH. intro; apply H; right; assumption.
Qed.

Lemma last_backslash_app (a : wstring) :
  forall (b : wstring) (pos bsp : Z),
    last_backslash (a ++ b) pos bsp
    = last_backslash b (pos + size a) (last_backslash a pos bsp).
Proof.
  induction a as [|c a IH]; intros b pos bsp.
  - simpl. change (size []) with 0. rewrite Z.add_0_r. reflexivity.
  - cbn [app last_backslash]. rewrite IH. f_equal.
    unfold size. simpl length. lia.
Qed.

Lemma last_backslash_dir_prefix (cs : list wstring) :
  last_backslash (dir_prefix cs) 0 (-1) = size (dir_prefix cs) - 1.
Proof.
  destruct cs as [|c cs]; [reflexivity|].
  unfold dir_prefix. rewrite last_backslash_app, size_app.
  simpl. change (size [BACKSLASH]) with 1. lia.
Qed.

Lemma substr_from_app (a b : wstring) : substr_from (a ++ b) (size a) = b.
Proof.
  unfold substr_from, size. rewrite Nat2Z.id, skipn_app, Nat.sub_diag.
  rewrite skipn_all. reflexivity.
Qed.

Lemma substr_from_past_end (s : wstring) (i : Z) :
  size s <= i -> substr_from s i = [].
Proof. intro H. unfold substr_from, size in *. apply skipn_all2. lia. Qed.

(** The paths part after the directory [cs], inside a segment or at its
    start: the ascent is counted from the last backslash matched. *)
Lemma relative_core_diverge (cs : list wstring) (m x y : wstring) :
  ~ In NUL (dir_prefix cs) -> ~ In NUL m -> ~ In BACKSLASH m ->
  hd NUL x <> hd NUL y ->
  (hd NUL x <> NUL /\ hd NUL x <> BACKSLASH)
  \/ (hd NUL y <> NUL /\ hd NUL y <> BACKSLASH) ->
  relative_core (dir_prefix cs ++ m ++ x) (dir_prefix cs ++ m ++ y)
  = (if size (dir_prefix cs) <? size (dir_prefix cs ++ m ++ y)
     then dotdot else [])
    ++ flat_map ascent (m ++ y) ++ m ++ x.
Proof.
  intros HJ Hm Hmb Hxy Hclean.
  pose proof (last_backslash_dir_prefix cs) as HlbJ.
  remember (dir_prefix cs) as J eqn:EJ. clear EJ cs.
  unfold relative_core.
  rewrite !(app_assoc J m).
  rewrite lockstep_common
    by (intro H; apply in_app_or in H; destruct H; contradiction).
  rewrite lockstep_stops_at_once by exact Hxy.
  rewrite Z.add_0_l, !at_app.
  rewrite last_backslash_app, (last_backslash_none m) by exact Hmb.
  rewrite HlbJ.
  destruct (Z.eqb_spec (hd NUL y) NUL) as [Hy|Hy];
    destruct (Z.eqb_spec (hd NUL x) NUL) as [Hx|Hx];
    destruct (Z.eqb_spec (hd NUL x) BACKSLASH) as [Hxb|Hxb];
    destruct (Z.eqb_spec (hd NUL y) BACKSLASH) as [Hyb|Hyb];
    cbn [andb orb]; try (exfalso; unfold NUL, BACKSLASH in *; lia).
  all: replace (size J - 1 + 1) with (size J) by lia.
  all: rewrite <- !app_assoc, !substr_from_app.
  all: destruct (Z.eqb_spec (size J - 1) (size (J ++ m ++ x))) as [E|_];
    [rewrite size_app in E; pose proof (size_nonneg (m ++ x)); lia|].
  all: reflexivity.
Qed.

(** [path] is an ancestor of [base]. *)
Lemma relative_core_ancestor (path y : wstring) :
  ~ In NUL path ->
  relative_core path (path ++ BACKSLASH :: y)
  = (if size path + 1 <? size (path ++ BACKSLASH :: y) then dotdot else [])
    ++ flat_map ascent y.
Proof.
  intro Hnul. unfold relative_core.
  rewrite <- (app_nil_r path) at 1.
  rewrite lockstep_common by exact Hnul. cbn [lockstep].
  rewrite Z.add_0_l, at_app, at_size. cbn [hd].
  change (BACKSLASH =? NUL) with false. cbn [andb orb].
  rewrite !Z.eqb_refl. cbn [andb orb negb].
  replace (path ++ BACKSLASH :: y) with ((path ++ [BACKSLASH]) ++ y)
    by (rewrite <- app_assoc; reflexivity).
  rewrite <- (size_snoc path BACKSLASH), substr_from_app, app_nil_r.
  reflexivity.
Qed.

(** [base] is an ancestor of [path]. *)
Lemma relative_core_descendant (base x : wstring) :
  ~ In NUL base ->
  relative_core (base ++ BACKSLASH :: x) base = x.
Proof.
  intro Hnul. unfold relative_core.
  rewrite <- (app_nil_r base) at 2.
  rewrite lockstep_common by exact Hnul.
  assert (E : lockstep (BACKSLASH :: x) [] (0 + size base)
                (last_backslash base 0 (-1))
              = (0 + size base, last_backslash base 0 (-1))) by reflexivity.
  rewrite E. clear E.
  rewrite Z.add_0_l, at_app, at_size. cbn [hd].
  rewrite !Z.eqb_refl. change (BACKSLASH =? NUL) with false. cbn [andb orb].
  destruct (Z.ltb_spec (size base + 1) (size base)); [lia|].
  rewrite substr_from_past_end by lia.
  destruct (Z.eqb_spec (size base) (size (base ++ BACKSLASH :: x))) as [E|_].
  { rewrite size_app in E. unfold size in E. simpl in E. lia. }
  cbn [negb flat_map app].
  replace (base ++ BACKSLASH :: x) with ((base ++ [BACKSLASH]) ++ x)
    by (rewrite <- app_assoc; reflexivity).
  rewrite <- (size_snoc base BACKSLASH), substr_from_app. reflexivity.
Qed.

Lemma relative_core_same (s : wstring) : ~ In NUL s -> relative_core s s = [].
Proof.
  intro Hnul. unfold relative_core.
  rewrite <- (app_nil_r s) at 1 2.
  rewrite lockstep_common by exact Hnul. cbn [lockstep].
  rewrite Z.add_0_l, at_size. reflexivity.
Qed.

(** ** Clean segments *)

Lemma wstring_eqb_eq (a : wstring) :
  forall b, wstring_eqb a b = true <-> a = b.
Proof.
  induction a as [|x a IH]; intros [|y b]; simpl; split; intro H;
    try reflexivity; try discriminate.
  - apply andb_true_iff in H. destruct H as [Hxy Hab].
    apply Z.eqb_eq in Hxy. apply IH in Hab. congruence.
  - injection H as -> ->. rewrite Z.eqb_refl. simpl. apply IH. reflexivity.
Qed.

Lemma seg_ok_inv (seg : wstring) :
  seg_ok seg ->
  seg <> [] /\ seg <> [DOT] /\ seg <> [DOT; DOT]
  /\ (forall c, In c seg -> c <> NUL /\ c <> BACKSLASH).
Proof.
  intros [Hc Hb]. unfold clean_segment in Hc.
  apply andb_true_iff in Hc. destruct Hc as [Hc Hnul].
  apply andb_true_iff in Hc. destruct Hc as [Hc Hdd].
  apply andb_true_iff in Hc. destruct Hc as [Hne Hd].
  split; [|split; [|split]].
  - intros ->. discriminate.
  - intros ->. discriminate.
  - intros ->. discriminate.
  - intros c Hin. split; intros ->.
    + rewrite forallb_forall in Hnul. apply Hnul in Hin. discriminate.
    + contradiction.
Qed.

Lemma seg_ok_hd (seg rest : wstring) :
  seg_ok seg ->
  hd NUL (seg ++ rest) <> NUL /\ hd NUL (seg ++ rest) <> BACKSLASH.
Proof.
  intro H. apply seg_ok_inv in H. destruct H as (Hne & _ & _ & Hin).
  destruct seg as [|c seg]; [contradiction Hne; reflexivity|].
  simpl. apply Hin. left. reflexivity.
Qed.

Lemma hd_sep_tail (segs : list wstring) :
  hd NUL (sep_tail segs) = NUL \/ hd NUL (sep_tail segs) = BACKSLASH.
Proof. destruct segs; [left|right]; reflexivity. Qed.

Lemma join_path_no_nul (segs : list wstring) :
  Forall seg_ok segs -> ~ In NUL (join_path segs).
Proof.
  induction 1 as [|seg segs Hseg Hsegs IH]; [intros []|].
  rewrite join_path_cons. intro H. apply in_app_or in H.
  apply seg_ok_inv in Hseg. destruct Hseg as (_ & _ & _ & Hin).
  destruct H as [H|H]; [apply Hin in H; tauto|].
  destruct segs; [destruct H|].
  destruct H as [H|H]; [discriminate H|]. apply IH, H.
Qed.

Lemma dir_prefix_no_nul (segs : list wstring) :
  Forall seg_ok segs -> ~ In NUL (dir_prefix segs).
Proof.
  intros H Hin. destruct segs as [|seg segs]; [destruct Hin|].
  unfold dir_prefix in Hin. apply in_app_or in Hin.
  destruct Hin as [Hin|[Hin|[]]]; [|discriminate Hin].
  exact (join_path_no_nul _ H Hin).
Qed.

Lemma dotdots_S (n : nat) : dotdots (S n) = dotdot ++ dotdots n.
Proof. reflexivity. Qed.

Lemma flat_map_ascent_segment (seg : wstring) :
  ~ In BACKSLASH seg -> flat_map ascent seg = [].
Proof.
  induction seg as [|c seg IH]; intro H; [reflexivity|].
  cbn [flat_map]. unfold ascent at 1.
  destruct (Z.eqb_spec c BACKSLASH) as [->|_];
    [exfalso; apply H; left; reflexivity|].
  apply IH. intro; apply H; right; assumption.
Qed.

Lemma flat_map_ascent_join (segs : list wstring) :
  Forall seg_ok segs ->
  flat_map ascent (join_path segs) = dotdots (pred (length segs)).
Proof.
  induction 1 as [|seg segs Hseg Hsegs IH]; [reflexivity|].
  rewrite join_path_cons, flat_map_app.
  rewrite flat_map_ascent_segment by (destruct Hseg; assumption).
  destruct segs as [|seg' segs]; [reflexivity|].
  unfold sep_tail. cbn [flat_map app length pred].
  rewrite IH. reflexivity.
Qed.

Lemma common_prefix {A : Type} (eq_dec : forall a b : A, {a = b} + {a <> b})
  (xs : list A) :
  forall ys, exists cs xs' ys',
    xs = cs ++ xs' /\ ys = cs ++ ys'
    /\ match xs', ys' with
       | x :: _, y :: _ => x <> y
       | _, _ => True
       end.
Proof.
  induction xs as [|x xs IH]; intro ys.
  - exists [], [], ys. repeat split.
  - destruct ys as [|y ys]; [exists [], (x :: xs), []; repeat split|].
    destruct (eq_dec x y) as [->|Hxy].
    + destruct (IH ys) as (cs & xs' & ys' & -> & -> & H).
      exists (y :: cs), xs', ys'. repeat split. exact H.
    + exists [], (x :: xs), (y :: ys). repeat split. exact Hxy.
Qed.

(** ** The result of [RelativeTo] on normalized paths *)

Lemma join_path_size_pos (seg : wstring) (segs : list wstring) :
  seg_ok seg -> 0 < size (join_path (seg :: segs)).
Proof.
  intro H. apply seg_ok_inv in H. destruct H as (Hne & _).
  rewrite join_path_cons, size_app. pose proof (size_nonneg (sep_tail segs)).
  destruct seg; [contradiction Hne; reflexivity|].
  unfold size in *. simpl length. lia.
Qed.

Lemma ascent_prefix (J : wstring) (seg : wstring) (segs : list wstring) :
  Forall seg_ok (seg :: segs) ->
  (if size J <? size (J ++ join_path (seg :: segs)) then dotdot else [])
  ++ flat_map ascent (join_path (seg :: segs))
  = dotdots (length (seg :: segs)).
Proof.
  intro H. rewrite flat_map_ascent_join by exact H.
  inversion H as [|? ? Hseg _]; subst.
  pose proof (join_path_size_pos seg segs Hseg).
  rewrite size_app.
  destruct (Z.ltb_spec (size J) (size J + size (join_path (seg :: segs))));
    [|lia].
  reflexivity.
Qed.

Lemma relative_core_segments (cs ps bs : list wstring) :
  Forall seg_ok cs -> Forall seg_ok ps -> Forall seg_ok bs ->
  match ps, bs with
  | p :: _, b :: _ => p <> b
  | _, _ => True
  end ->
  relative_core (join_path (cs ++ ps)) (join_path (cs ++ bs))
  = dotdots (length bs) ++ join_path ps.
Proof.
  intros Hcs Hps Hbs Hdiff.
  pose proof (dir_prefix_no_nul cs Hcs) as HJ.
  pose proof (join_path_no_nul cs Hcs) as Hcsnul.
  destruct ps as [|p ps]; destruct bs as [|b bs].
  - rewrite app_nil_r. apply relative_core_same, Hcsnul.
  - (* [path] is the directory [cs] itself *)
    rewrite app_nil_r, join_path_app by discriminate.
    inversion Hbs as [|? ? Hb _]; subst.
    destruct cs as [|c cs].
    + pose proof (relative_core_diverge [] [] [] (join_path (b :: bs))) as H.
      cbn [dir_prefix app] in H.
      change (join_path []) with (@nil wchar_t). cbn [dir_prefix app].
      rewrite H; clear H.
      * rewrite !app_nil_r.
        exact (ascent_prefix [] b bs Hbs).
      * intros [].
      * intros [].
      * intros [].
      * rewrite join_path_cons.
        destruct (seg_ok_hd b (sep_tail bs) Hb) as [Hn _]. simpl in *. congruence.
      * right. rewrite join_path_cons. apply seg_ok_hd, Hb.
    + unfold dir_prefix. rewrite <- app_assoc. cbn [app].
      rewrite relative_core_ancestor by exact Hcsnul.
      pose proof (ascent_prefix (join_path (c :: cs) ++ [BACKSLASH]) b bs Hbs)
        as H.
      rewrite <- app_assoc, size_snoc in H. cbn [app] in H. rewrite H.
      rewrite app_nil_r. reflexivity.
  - (* [base] is the directory [cs] itself *)
    rewrite app_nil_r, join_path_app by discriminate.
    inversion Hps as [|? ? Hp _]; subst.
    destruct cs as [|c cs].
    + pose proof (relative_core_diverge [] [] (join_path (p :: ps)) []) as H.
      cbn [dir_prefix app] in H.
      change (join_path []) with (@nil wchar_t). cbn [dir_prefix app].
      rewrite H; clear H.
      * reflexivity.
      * intros [].
      * intros [].
      * intros [].
      * rewrite join_path_cons.
        destruct (seg_ok_hd p (sep_tail ps) Hp) as [Hn _]. simpl in *. congruence.
      * left. rewrite join_path_cons. apply seg_ok_hd, Hp.
    + unfold dir_prefix. rewrite <- app_assoc. cbn [app].
      rewrite relative_core_descendant by exact Hcsnul. reflexivity.
  - (* the paths part at the segments [p] and [b] *)
    inversion Hps as [|? ? Hp _]; subst. inversion Hbs as [|? ? Hb _]; subst.
    destruct (common_prefix Z.eq_dec p b) as (m & p1 & b1 & Ep & Eb & Hpb).
    pose proof (seg_ok_inv p Hp) as (_ & _ & _ & Hpin).
    pose proof (seg_ok_inv b Hb) as (_ & _ & _ & Hbin).
    assert (EP : join_path (p :: ps) = m ++ p1 ++ sep_tail ps)
      by (rewrite join_path_cons, Ep, <- app_assoc; reflexivity).
    assert (EB : join_path (b :: bs) = m ++ b1 ++ sep_tail bs)
      by (rewrite join_path_cons, Eb, <- app_assoc; reflexivity).
    rewrite !join_path_app by discriminate. rewrite EP, EB.
    rewrite relative_core_diverge.
    + unfold wstring, wchar_t in *. rewrite <- EP, <- EB, app_assoc.
      f_equal. exact (ascent_prefix (dir_prefix cs) b bs Hbs).
    + exact HJ.
    + intro H. assert (In NUL p) by (rewrite Ep; apply in_or_app; left; exact H).
      apply Hpin in H0. tauto.
    + intro H.
      assert (In BACKSLASH p) by (rewrite Ep; apply in_or_app; left; exact H).
      apply Hpin in H0. tauto.
    + destruct p1 as [|c p1]; destruct b1 as [|d b1]; cbn [app hd].
      * exfalso. apply Hdiff. congruence.
      * assert (In d b) by (rewrite Eb; apply in_or_app; right; left; reflexivity).
        apply Hbin in H. destruct (hd_sep_tail ps) as [E|E]; rewrite E; intuition.
      * assert (In c p) by (rewrite Ep; apply in_or_app; right; left; reflexivity).
        apply Hpin in H. destruct (hd_sep_tail bs) as [E|E]; rewrite E; intuition.
      * exact Hpb.
    + destruct p1 as [|c p1]; cbn [app hd].
      * destruct b1 as [|d b1]; [exfalso; apply Hdiff; congruence|].
        right. cbn [app hd]. apply Hbin. rewrite Eb. apply in_or_app.
        right; left; reflexivity.
      * left. apply Hpin. rewrite Ep. apply in_or_app. right; left; reflexivity.
Qed.

(** ** Resolving the result against [base] *)

Lemma filter_clean (segs : list wstring) :
  Forall seg_ok segs ->
  filter (fun seg => negb (is_empty seg)) segs = segs.
Proof.
  induction 1 as [|seg segs Hseg _ IH]; [reflexivity|].
  simpl. rewrite IH. apply seg_ok_inv in Hseg. destruct Hseg as (Hne & _).
  destruct seg; [contradiction Hne|]; reflexivity.
Qed.

Lemma Forall_seg_ok_no_backslash (segs : list wstring) :
  Forall seg_ok segs -> Forall (fun seg => ~ In BACKSLASH seg) segs.
Proof. apply Forall_impl. intros seg [_ H]. exact H. Qed.

Lemma split_path_dotdots (n : nat) (rest : wstring) :
  split_path (dotdots n ++ rest) = repeat [DOT; DOT] n ++ split_path rest.
Proof.
  induction n as [|n IH]; [reflexivity|].
  rewrite dotdots_S, <- app_assoc.
  change (dotdot ++ dotdots n ++ rest)
    with ([DOT; DOT] ++ BACKSLASH :: (dotdots n ++ rest)).
  rewrite split_path_segment, IH; [reflexivity|].
  intros [H|[H|[]]]; discriminate H.
Qed.

Lemma resolve_step_clean (rooted : bool) (acc : list wstring) (seg : wstring) :
  seg_ok seg -> resolve_step rooted acc seg = acc ++ [seg].
Proof.
  intro H. apply seg_ok_inv in H. destruct H as (Hne & Hd & Hdd & _).
  unfold resolve_step.
  destruct seg as [|c seg]; [contradiction Hne; reflexivity|].
  cbn [is_empty orb].
  destruct (wstring_eqb (c :: seg) [DOT]) eqn:E1;
    [apply wstring_eqb_eq in E1; contradiction|].
  destruct (wstring_eqb (c :: seg) [DOT; DOT]) eqn:E2;
    [apply wstring_eqb_eq in E2; contradiction|].
  reflexivity.
Qed.

Lemma resolve_step_dotdot (rooted : bool) (acc : list wstring) (seg : wstring) :
  seg_ok seg -> resolve_step rooted (acc ++ [seg]) [DOT; DOT] = acc.
Proof.
  intro H. apply seg_ok_inv in H. destruct H as (_ & _ & Hdd & _).
  unfold resolve_step. cbn [is_empty orb].
  change (wstring_eqb [DOT; DOT] [DOT]) with false.
  change (wstring_eqb [DOT; DOT] [DOT; DOT]) with true. cbn iota.
  rewrite last_last, removelast_last.
  destruct (wstring_eqb seg [DOT; DOT]) eqn:E;
    [apply wstring_eqb_eq in E; contradiction|].
  destruct (acc ++ [seg]) eqn:Eacc; [|reflexivity].
  destruct acc; discriminate Eacc.
Qed.

Lemma resolve_ascend (rooted : bool) (bs : list wstring) :
  Forall seg_ok bs ->
  forall cs,
    fold_left (resolve_step rooted) (repeat [DOT; DOT] (length bs)) (cs ++ bs)
    = cs.
Proof.
  induction bs as [|b bs IH] using rev_ind; intros Hbs cs.
  - simpl. apply app_nil_r.
  - apply Forall_app in Hbs. destruct Hbs as [Hbs Hb].
    inversion Hb as [|? ? Hb' _]; subst.
    rewrite length_app, Nat.add_1_r. cbn [repeat fold_left].
    rewrite app_assoc, resolve_step_dotdot by exact Hb'.
    apply IH, Hbs.
Qed.

Lemma resolve_descend (rooted : bool) (segs : list wstring) :
  Forall seg_ok segs ->
  forall acc, fold_left (resolve_step rooted) segs acc = acc ++ segs.
Proof.
  induction 1 as [|seg segs Hseg _ IH]; intro acc.
  - simpl. symmetry. apply app_nil_r.
  - cbn [fold_left]. rewrite resolve_step_clean by exact Hseg.
    rewrite IH, <- app_assoc. reflexivity.
Qed.

(** The walk of a result of [RelativeTo]: up over [bs], down along [ps]. *)
Lemma resolve_walk (rooted : bool) (cs ps bs : list wstring) :
  Forall seg_ok ps -> Forall seg_ok bs ->
  fold_left (resolve_step rooted)
    (split_path (dotdots (length bs) ++ join_path ps)) (cs ++ bs)
  = cs ++ ps.
Proof.
  intros Hps Hbs.
  rewrite split_path_dotdots, fold_left_app, resolve_ascend by exact Hbs.
  destruct ps as [|p ps].
  - simpl. rewrite app_nil_r. reflexivity.
  - rewrite split_join;
      [|discriminate|apply Forall_seg_ok_no_backslash, Hps].
    apply resolve_descend, Hps.
Qed.

(** *** Drives and locations *)

Lemma is_drive_inv (d : wstring) :
  is_drive d = true ->
  exists c, d = [c; COLON] /\ blaze_util.is_letter c = true.
Proof.
  unfold is_drive. intro H.
  destruct d as [|c [|e [|? ?]]]; try discriminate H.
  apply andb_true_iff in H. destruct H as [Hc He].
  apply Z.eqb_eq in He. subst e. exists c. split; [reflexivity|exact Hc].
Qed.

Lemma letter_is_plain (c : wchar_t) :
  blaze_util.is_letter c = true ->
  c <> NUL /\ c <> BACKSLASH /\ c <> DOT.
Proof.
  intro H. repeat split; intros ->; discriminate H.
Qed.

Lemma drive_seg_ok (d : wstring) : is_drive d = true -> seg_ok d.
Proof.
  intro H. destruct (is_drive_inv d H) as (c & -> & Hc).
  destruct (letter_is_plain c Hc) as (Hnul & Hbs & Hdot).
  split.
  - unfold clean_segment. cbn [is_empty negb andb forallb wstring_eqb].
    destruct (Z.eqb_spec c DOT) as [|_]; [contradiction|].
    destruct (Z.eqb_spec c NUL) as [|_]; [contradiction|].
    reflexivity.
  - intros [E|[E|[]]]; [congruence|discriminate E].
Qed.

Lemma drive_is_absolute (d rest : wstring) :
  is_drive d = true -> blaze_util.IsAbsolute (d ++ rest) = true.
Proof.
  intro H. destruct (is_drive_inv d H) as (c & -> & Hc).
  cbn [app blaze_util.IsAbsolute]. rewrite Hc. reflexivity.
Qed.

Lemma non_empty_segments_clean (segs : list wstring) :
  Forall seg_ok segs -> non_empty_segments segs = segs.
Proof. exact (filter_clean segs). Qed.

Lemma split_path_join_segments (segs : list wstring) :
  Forall seg_ok segs -> non_empty_segments (split_path (join_path segs)) = segs.
Proof.
  intro H. destruct segs as [|seg segs]; [reflexivity|].
  rewrite split_join;
    [apply non_empty_segments_clean, H | discriminate
    | apply Forall_seg_ok_no_backslash, H].
Qed.

Lemma locate_absolute (d : wstring) (segs : list wstring) :
  is_drive d = true -> Forall seg_ok segs ->
  locate (d ++ BACKSLASH :: join_path segs) = mkLocation (Some d) segs.
Proof.
  intros Hd Hsegs. unfold locate.
  rewrite split_path_segment by (destruct (drive_seg_ok d Hd); assumption).
  rewrite Hd, split_path_join_segments by exact Hsegs. reflexivity.
Qed.

Lemma locate_relative (segs : list wstring) :
  blaze_util.IsAbsolute (join_path segs) = false -> Forall seg_ok segs ->
  locate (join_path segs) = mkLocation None segs.
Proof.
  intros Hrel Hsegs. unfold locate.
  destruct segs as [|seg segs]; [reflexivity|].
  rewrite split_join by (discriminate || apply Forall_seg_ok_no_backslash, Hsegs).
  destruct (is_drive seg) eqn:E.
  - rewrite join_path_cons, drive_is_absolute in Hrel by exact E.
    discriminate Hrel.
  - rewrite non_empty_segments_clean by exact Hsegs. reflexivity.
Qed.

Lemma normalized_cases (s : wstring) :
  normalized s = true ->
  (exists d segs,
      is_drive d = true /\ s = d ++ BACKSLASH :: join_path segs
      /\ Forall seg_ok segs)
  \/ (blaze_util.IsAbsolute s = false
      /\ exists segs, s = join_path segs /\ Forall seg_ok segs).
Proof.
  intro H. unfold normalized in H.
  pose proof (join_split s) as Hjoin.
  pose proof (split_path_no_backslash s) as Hnb.
  assert (Hok : forall segs,
             Forall (fun seg => ~ In BACKSLASH seg) segs ->
             forallb clean_segment segs = true -> Forall seg_ok segs).
  { intros segs Hb Hc. rewrite forallb_forall in Hc.
    rewrite Forall_forall in *. intros seg Hin. split; auto. }
  destruct (split_path s) as [|seg segs]; [discriminate H|].
  apply Forall_cons_iff in Hnb. destruct Hnb as [Hseg Hsegs].
  destruct (is_drive seg) eqn:Ed.
  - left. exists seg.
    destruct segs as [|x rest]; [discriminate H|].
    destruct x as [|c x].
    + destruct rest as [|y rest]; [|discriminate H].
      exists []. split; [exact Ed|].
      split; [symmetry; exact Hjoin|constructor].
    + exists ((c :: x) :: rest). split; [exact Ed|]. split.
      * rewrite <- Hjoin. reflexivity.
      * apply Hok; [exact Hsegs|].
        destruct rest; exact H.
  - right. destruct s as [|c s].
    + split; [reflexivity|]. exists []. split; [reflexivity|constructor].
    + cbn [is_empty orb] in H. apply andb_true_iff in H.
      destruct H as [Habs Hclean]. apply negb_true_iff in Habs.
      split; [exact Habs|]. exists (seg :: segs).
      split; [symmetry; exact Hjoin|].
      apply Hok; [constructor; assumption|exact Hclean].
Qed.

(** *** The result of [RelativeTo] below a drive's root *)

Lemma rooted_as_prefix (d : wstring) (segs : list wstring) :
  d ++ BACKSLASH :: join_path segs = dir_prefix [d] ++ join_path segs.
Proof. unfold dir_prefix. cbn [join_path]. rewrite <- app_assoc. reflexivity. Qed.

Lemma relative_core_rooted (d : wstring) (cs ps bs : list wstring) :
  is_drive d = true ->
  Forall seg_ok cs -> Forall seg_ok ps -> Forall seg_ok bs ->
  match ps, bs with
  | p :: _, b :: _ => p <> b
  | _, _ => True
  end ->
  relative_core (d ++ BACKSLASH :: join_path (cs ++ ps))
    (d ++ BACKSLASH :: join_path (cs ++ bs))
  = dotdots (length bs) ++ join_path ps.
Proof.
  intros Hd Hcs Hps Hbs Hdiff.
  pose proof (drive_seg_ok d Hd) as Hdok.
  assert (Hnul : ~ In NUL (dir_prefix [d]))
    by (apply dir_prefix_no_nul; constructor; [exact Hdok|constructor]).
  rewrite !rooted_as_prefix.
  destruct cs as [|c cs]; [destruct ps as [|p ps]; destruct bs as [|b bs]|].
  - cbn [app]. change (join_path []) with (@nil wchar_t).
    rewrite app_nil_r. apply relative_core_same, Hnul.
  - (* [path] is the root *)
    cbn [app]. inversion Hbs as [|? ? Hb _]; subst.
    pose proof (relative_core_diverge [d] [] [] (join_path (b :: bs))) as H.
    cbn [app] in H. change (join_path []) with (@nil wchar_t).
    rewrite app_nil_r. rewrite app_nil_r in H. rewrite H; clear H.
    + rewrite !app_nil_r. exact (ascent_prefix (dir_prefix [d]) b bs Hbs).
    + exact Hnul.
    + intros [].
    + intros [].
    + rewrite join_path_cons.
      destruct (seg_ok_hd b (sep_tail bs) Hb) as [Hn _]. simpl in *. congruence.
    + right. rewrite join_path_cons. apply seg_ok_hd, Hb.
  - (* [base] is the root *)
    cbn [app]. inversion Hps as [|? ? Hp _]; subst.
    pose proof (relative_core_diverge [d] [] (join_path (p :: ps)) []) as H.
    cbn [app] in H. change (join_path []) with (@nil wchar_t).
    rewrite app_nil_r. rewrite app_nil_r in H. rewrite H; clear H.
    + rewrite Z.ltb_irrefl. reflexivity.
    + exact Hnul.
    + intros [].
    + intros [].
    + rewrite join_path_cons.
      destruct (seg_ok_hd p (sep_tail ps) Hp) as [Hn _]. simpl in *. congruence.
    + left. rewrite join_path_cons. apply seg_ok_hd, Hp.
  - cbn [app]. rewrite <- !(join_path_app [d]) by discriminate.
    exact (relative_core_segments [d] (p :: ps) (b :: bs)
             (Forall_cons _ Hdok (Forall_nil _)) Hps Hbs Hdiff).
  - rewrite <- !(join_path_app [d]) by discriminate.
    rewrite !(app_assoc [d]).
    apply relative_core_segments; try assumption.
    constructor; assumption.
Qed.

(** *** Resolution gives the path back *)

Lemma resolve_below_root (d : wstring) (cs ps bs : list wstring) :
  is_drive d = true ->
  Forall seg_ok cs -> Forall seg_ok ps -> Forall seg_ok bs ->
  resolve (d ++ BACKSLASH :: join_path (cs ++ bs))
    (dotdots (length bs) ++ join_path ps)
  = d ++ BACKSLASH :: join_path (cs ++ ps).
Proof.
  intros Hd Hcs Hps Hbs. unfold resolve.
  rewrite locate_absolute by (assumption || (apply Forall_app; split; assumption)).
  cbn [volume below]. rewrite resolve_walk by assumption. reflexivity.
Qed.

Lemma resolve_relative (cs ps bs : list wstring) :
  blaze_util.IsAbsolute (join_path (cs ++ bs)) = false ->
  Forall seg_ok cs -> Forall seg_ok ps -> Forall seg_ok bs ->
  resolve (join_path (cs ++ bs)) (dotdots (length bs) ++ join_path ps)
  = join_path (cs ++ ps).
Proof.
  intros Hrel Hcs Hps Hbs. unfold resolve.
  rewrite locate_relative by (assumption || (apply Forall_app; split; assumption)).
  cbn [volume below]. rewrite resolve_walk by assumption. reflexivity.
Qed.

(** [..] cannot leave the volume or drop its root, a drive identifier in
    a relative path is a segment like any other, and a relative location
    keeps the [..] it cannot follow. *)
Lemma resolve_stays_on_the_volume :
  resolve (L "C:\foo") (L "..\..\D:\bar") = L "C:\D:\bar"
  /\ resolve (L "C:\foo") (L "..\") = L "C:\"
  /\ resolve (L "C:\foo\bar") (L "..\..\..\..\C:\foo\baz") = L "C:\C:\foo\baz"
  /\ resolve (L "a") (L "..\..\b") = L "..\b".
Proof. repeat split. Qed.

(** C2: for normalized [path] and [base], drive roots included, that
    [RelativeTo] accepts under a classification that tells absolute from
    relative on these two paths as the data model does, resolving the
    returned string against [base], segment by segment and without
    leaving the volume, gives [path] back, character for character. *)
Theorem RelativeTo_consistency (IsAbsolute : wstring -> bool)
  (path base result rel : wstring) (w w' : world) :
  IsAbsolute path = blaze_util.IsAbsolute path ->
  IsAbsolute base = blaze_util.IsAbsolute base ->
  normalized path = true -> normalized base = true ->
  RelativeTo IsAbsolute path base result w = Returned (true, rel) w' ->
  resolve base rel = path.
Proof.
  intros HIp HIb Hpath Hbase Hrel.
  destruct (mixed IsAbsolute path base || different_drives IsAbsolute path base)
    eqn:E.
  { destruct (RelativeTo_failure IsAbsolute path base result w E) as [mode E'].
    rewrite E' in Hrel. discriminate Hrel. }
  rewrite (RelativeTo_success IsAbsolute path base result w E) in Hrel.
  injection Hrel as <- _.
  apply orb_false_elim in E. destruct E as [Hmixed Hdrives].
  unfold mixed in Hmixed. apply negb_false_iff, Bool.eqb_prop in Hmixed.
  unfold different_drives in Hdrives. rewrite HIp, HIb in Hmixed, Hdrives.
  destruct (normalized_cases path Hpath)
    as [(d & ps & Hd & -> & Hps)|(Hprel & ps & -> & Hps)];
    destruct (normalized_cases base Hbase)
      as [(d' & bs & Hd' & -> & Hbs)|(Hbrel & bs & -> & Hbs)].
  - (* both absolute: the first characters agree, so the drives do *)
    rewrite !drive_is_absolute in Hdrives by assumption.
    cbn [andb] in Hdrives. apply negb_false_iff, Z.eqb_eq in Hdrives.
    destruct (is_drive_inv d Hd) as (c & -> & _).
    destruct (is_drive_inv d' Hd') as (c' & -> & _).
    change (c = c') in Hdrives. subst c'.
    destruct (common_prefix (list_eq_dec Z.eq_dec) ps bs)
      as (cs & ps' & bs' & -> & -> & Hdiff).
    apply Forall_app in Hps. destruct Hps as [Hcs Hps'].
    apply Forall_app in Hbs. destruct Hbs as [_ Hbs'].
    rewrite relative_core_rooted by assumption.
    apply resolve_below_root; assumption.
  - rewrite drive_is_absolute, Hbrel in Hmixed by exact Hd. discriminate Hmixed.
  - rewrite drive_is_absolute, Hprel in Hmixed by exact Hd'. discriminate Hmixed.
  - (* both relative *)
    destruct (common_prefix (list_eq_dec Z.eq_dec) ps bs)
      as (cs & ps' & bs' & -> & -> & Hdiff).
    apply Forall_app in Hps. destruct Hps as [Hcs Hps'].
    apply Forall_app in Hbs. destruct Hbs as [_ Hbs'].
    rewrite relative_core_segments by assumption.
    apply resolve_relative; assumption.
Qed.

Lemma RelativeTo_consistency_witness :
  resolve (L "C:\foo\bar2\baz") (L "..\..\bar1\qux") = L "C:\foo\bar1\qux"
  /\ resolve (L "C:\foo\bar") (L "..\..\") = L "C:\"
  /\ resolve (L "out\bin") (L "..\..\src\main") = L "src\main".
Proof.
  split; [|split].
  - apply (RelativeTo_consistency blaze_util.IsAbsolute
             (L "C:\foo\bar1\qux") (L "C:\foo\bar2\baz") []
             (L "..\..\bar1\qux") initial_world initial_world);
      reflexivity.
  - apply (RelativeTo_consistency blaze_util.IsAbsolute
             (L "C:\") (L "C:\foo\bar") [] (L "..\..\")
             initial_world initial_world);
      reflexivity.
  - apply (RelativeTo_consistency blaze_util.IsAbsolute
             (L "src\main") (L "out\bin") [] (L "..\..\src\main")
             initial_world initial_world);
      reflexivity.
Defined.

(** ** Quoting: the loop and its recursion *)

Lemma narrows_faithfully_tests (c : wchar_t) :
  narrows_faithfully c = true ->
  (to_char c =? QUOTE) = (c =? QUOTE)
  /\ (to_char c =? BACKSLASH) = (c =? BACKSLASH).
Proof.
  unfold narrows_faithfully. intro H. apply andb_true_iff in H.
  destruct H as [Hq Hb]. split.
  - destruct (Z.eqb_spec c QUOTE) as [E|_]; [rewrite E; reflexivity|].
    destruct (to_char c =? QUOTE); [discriminate Hq|reflexivity].
  - destruct (Z.eqb_spec c BACKSLASH) as [E|_]; [rewrite E; reflexivity|].
    destruct (to_char c =? BACKSLASH); [discriminate Hb|reflexivity].
Qed.

Lemma backslashes_nat (n : nat) : backslashes (Z.of_nat n) = repeat BACKSLASH n.
Proof. unfold backslashes. rewrite Nat2Z.id. reflexivity. Qed.

Lemma repeat_snoc {A : Type} (x : A) (n : nat) (l : list A) :
  repeat x n ++ x :: l = repeat x (S n) ++ l.
Proof. induction n as [|n IH]; simpl; [reflexivity|]. rewrite IH. reflexivity. Qed.

Lemma escape_tail_run (k : nat) :
  forall (n : nat) (rest : wstring),
    escape_tail n (repeat BACKSLASH k ++ rest) = escape_tail (n + k) rest.
Proof.
  induction k as [|k IH]; intros n rest; simpl.
  - rewrite Nat.add_0_r. reflexivity.
  - rewrite IH. f_equal. lia.
Qed.

Lemma span_backslashes (s : wstring) :
  exists (k : nat) (rest : wstring),
    s = repeat BACKSLASH k ++ rest /\ hd NUL rest <> BACKSLASH.
Proof.
  induction s as [|c s IH].
  - exists O, []. split; [reflexivity|discriminate].
  - destruct IH as (k & rest & E & H). subst s.
    destruct (Z.eq_dec c BACKSLASH) as [->|Hc].
    + exists (S k), rest. split; [reflexivity|exact H].
    + exists O, (c :: repeat BACKSLASH k ++ rest). split; [reflexivity|exact Hc].
Qed.

Lemma backslash_run_spec (k : nat) :
  forall (fuel : nat) (pre rest : wstring) (run_len : Z),
    (k <= fuel)%nat -> hd NUL rest <> BACKSLASH ->
    backslash_run fuel (pre ++ repeat BACKSLASH k ++ rest) run_len (size pre)
    = (run_len + Z.of_nat k, size pre + Z.of_nat k).
Proof.
  induction k as [|k IH]; intros fuel pre rest run_len Hfuel Hrest.
  - cbn [repeat app]. rewrite !Z.add_0_r.
    destruct fuel as [|fuel]; [reflexivity|]. cbn [backslash_run].
    rewrite at_app. destruct (Z.eqb_spec (hd NUL rest) BACKSLASH); [contradiction|].
    rewrite andb_false_r. reflexivity.
  - destruct fuel as [|fuel]; [lia|]. cbn [backslash_run repeat app].
    rewrite at_app. cbn [hd]. rewrite Z.eqb_refl, andb_true_r.
    destruct (Z.ltb_spec (size pre)
                (size (pre ++ BACKSLASH :: repeat BACKSLASH k ++ rest)))
      as [_|H].
    2:{ rewrite size_app in H. unfold size in H. simpl in H. lia. }
    replace (pre ++ BACKSLASH :: repeat BACKSLASH k ++ rest)
      with ((pre ++ [BACKSLASH]) ++ repeat BACKSLASH k ++ rest)
      by (rewrite <- app_assoc; reflexivity).
    rewrite <- (size_snoc pre BACKSLASH), IH by (assumption || lia).
    rewrite size_snoc. f_equal; lia.
Qed.

Lemma substr_middle (a seg rest : wstring) :
  substr (a ++ seg ++ rest) (size a) (size a + size seg - size a) = seg.
Proof.
  unfold substr, size. rewrite Nat2Z.id, skipn_app, Nat.sub_diag, skipn_all.
  cbn [app skipn].
  replace (Z.to_nat (Z.of_nat (length a) + Z.of_nat (length seg)
                     - Z.of_nat (length a))) with (length seg) by lia.
  rewrite firstn_app, Nat.sub_diag, firstn_all. cbn [firstn].
  apply app_nil_r.
Qed.

Lemma flush_segment (a seg rest result : wstring) (start : Z) :
  (start = -1 /\ seg = []) \/ start = size a ->
  (if start >=? 0
   then (result ++ substr (a ++ seg ++ rest) start (size a + size seg - start),
         -1)
   else (result, start))
  = (result ++ seg, -1).
Proof.
  intros [[-> ->] | ->].
  - simpl. rewrite app_nil_r. reflexivity.
  - pose proof (size_nonneg a).
    destruct (Z.geb_spec (size a) 0); [|lia].
    rewrite substr_middle. reflexivity.
Qed.

Lemma close_segment_at_end (a seg result : wstring) (start : Z) :
  (start = -1 /\ seg = []) \/ start = size a ->
  close_segment (a ++ seg) (result, start) = result ++ seg.
Proof.
  intros [[-> ->] | ->]; unfold close_segment.
  - simpl. rewrite app_nil_r. reflexivity.
  - pose proof (size_nonneg a).
    destruct (Z.eqb_spec (size a) (-1)); [lia|].
    cbn [negb]. rewrite substr_from_app. reflexivity.
Qed.

(** The loop, entered at [i] with the characters [seg] read but not yet
    copied (from [start] on, or none and [start = -1]), writes [seg] and
    then what [escape_tail] says for the rest. *)
Lemma escape_loop_spec (fuel : nat) :
  forall (a seg rest result : wstring) (start : Z),
    (length rest <= fuel)%nat ->
    forallb narrows_faithfully rest = true ->
    (start = -1 /\ seg = []) \/ start = size a ->
    close_segment (a ++ seg ++ rest)
      (escape_loop fuel (a ++ seg ++ rest) (size a + size seg) start result)
    = result ++ seg ++ escape_tail O rest.
Proof.
  induction fuel as [|fuel IH]; intros a seg rest result start Hfuel Hfaith Hmode.
  - destruct rest; [|simpl in Hfuel; lia].
    cbn [escape_loop escape_tail repeat Nat.mul]. rewrite !app_nil_r.
    apply close_segment_at_end, Hmode.
  - destruct rest as [|c r].
    + cbn [escape_loop escape_tail repeat Nat.mul]. rewrite !app_nil_r.
      assert (Hge : (size a + size seg <? size (a ++ seg)) = false)
        by (apply Z.ltb_ge; rewrite size_app; lia).
      rewrite Hge.
      apply close_segment_at_end, Hmode.
    + cbn [escape_loop].
      assert (Hlt : (size a + size seg <? size (a ++ seg ++ c :: r)) = true).
      { apply Z.ltb_lt. rewrite !size_app. unfold size. simpl length. lia. }
      rewrite Hlt. clear Hlt.
      assert (Hat : at_ (a ++ seg ++ c :: r) (size a + size seg) = c).
      { rewrite app_assoc, <- size_app, at_app. reflexivity. }
      rewrite Hat. clear Hat.
      rewrite flush_segment by exact Hmode.
      cbn [forallb] in Hfaith. apply andb_true_iff in Hfaith.
      destruct Hfaith as [Hc Hr].
      destruct (narrows_faithfully_tests c Hc) as [-> ->].
      simpl in Hfuel.
      destruct (Z.eqb_spec c QUOTE) as [Eq|Hq].
      * (* a quote *)
        subst c. cbn [orb escape_tail]. change (QUOTE =? BACKSLASH) with false.
        cbn iota. cbn [Nat.mul repeat app].
        pose proof (IH (a ++ seg ++ [QUOTE]) [] r
                      ((result ++ seg) ++ [BACKSLASH; QUOTE]) (-1)) as H.
        rewrite <- !app_assoc in H. cbn [app] in H.
        rewrite !size_app in H. change (size []) with 0 in H.
        change (size [QUOTE]) with 1 in H.
        replace (size a + (size seg + 1) + 0) with (size a + size seg + 1)
          in H by lia.
        rewrite <- !app_assoc. cbn [app].
        rewrite H; [reflexivity|lia|exact Hr|left; split; reflexivity].
      * destruct (Z.eqb_spec c BACKSLASH) as [Eb|Hb].
        -- (* a run of backslashes *)
           subst c. cbn [orb].
           destruct (span_backslashes r) as (k & rest & -> & Hrest).
           cbn [escape_tail].
           change (BACKSLASH =? BACKSLASH) with true. cbn iota.
           rewrite escape_tail_run. cbn [Nat.add].
           pose proof (backslash_run_spec k
                         (length (a ++ seg ++ BACKSLASH :: repeat BACKSLASH k
                                  ++ rest))
                         (a ++ seg ++ [BACKSLASH]) rest 1) as Hrun.
           rewrite <- !app_assoc in Hrun. cbn [app] in Hrun.
           rewrite !size_app in Hrun. change (size [BACKSLASH]) with 1 in Hrun.
           replace (size a + (size seg + 1)) with (size a + size seg + 1)
             in Hrun by lia.
           rewrite Hrun;
             [|rewrite !length_app; simpl; rewrite length_app, repeat_length; lia
              |exact Hrest].
           clear Hrun.
           assert (Hsize : size (a ++ seg ++ BACKSLASH :: repeat BACKSLASH k
                                 ++ rest)
                           = size a + size seg + 1 + Z.of_nat k + size rest).
           { rewrite !size_app. unfold size. simpl length.
             rewrite length_app, repeat_length. lia. }
           rewrite Hsize. clear Hsize.
           rewrite !forallb_app in Hr. apply andb_true_iff in Hr.
           destruct Hr as [_ Hr].
           rewrite length_app, repeat_length in Hfuel.
           destruct rest as [|d rest].
           ++ (* the run goes to the end *)
              change (size []) with 0.
              rewrite Z.add_0_r, Z.eqb_refl.
              unfold close_segment. change (-1 =? -1) with true.
              cbn [negb escape_tail].
              replace ((1 + Z.of_nat k) * 2) with (Z.of_nat (2 * S k)) by lia.
              rewrite backslashes_nat, <- app_assoc. reflexivity.
           ++ assert (Hd : d <> BACKSLASH) by exact Hrest.
              assert (Hne : (size a + size seg + 1 + Z.of_nat k
                             =? size a + size seg + 1 + Z.of_nat k
                                + size (d :: rest)) = false).
              { apply Z.eqb_neq. unfold size. simpl length. lia. }
              rewrite Hne. clear Hne.
              assert (Hlt : (size a + size seg + 1 + Z.of_nat k
                             <? size a + size seg + 1 + Z.of_nat k
                                + size (d :: rest)) = true).
              { apply Z.ltb_lt. unfold size. simpl length. lia. }
              rewrite Hlt. clear Hlt. cbn [andb].
              assert (Hat : at_ (a ++ seg ++ BACKSLASH :: repeat BACKSLASH k
                                 ++ d :: rest)
                              (size a + size seg + 1 + Z.of_nat k) = d).
              { replace (a ++ seg ++ BACKSLASH :: repeat BACKSLASH k ++ d :: rest)
                  with ((a ++ seg ++ BACKSLASH :: repeat BACKSLASH k)
                        ++ d :: rest)
                  by (rewrite <- !app_assoc; reflexivity).
                replace (size a + size seg + 1 + Z.of_nat k)
                  with (size (a ++ seg ++ BACKSLASH :: repeat BACKSLASH k)).
                - apply at_app.
                - rewrite !size_app. unfold size. simpl length.
                  rewrite repeat_length. lia. }
              rewrite Hat. clear Hat.
              cbn [escape_tail forallb] in *.
              apply andb_true_iff in Hr. destruct Hr as [Hdf Hr].
              destruct (Z.eqb_spec d BACKSLASH) as [|_]; [contradiction|].
              simpl in Hfuel.
              destruct (Z.eqb_spec d QUOTE) as [->|Hdq].
              ** (* the run ends at a quote *)
                 pose proof (IH (a ++ seg ++ BACKSLASH :: repeat BACKSLASH k
                                 ++ [QUOTE]) [] rest
                               ((result ++ seg)
                                ++ backslashes ((1 + Z.of_nat k) * 2)
                                ++ [BACKSLASH; QUOTE]) (-1)) as H.
                 rewrite <- !app_assoc in H. cbn [app] in H.
                 rewrite <- !app_assoc in H. cbn [app] in H.
                 rewrite !size_app in H. change (size []) with 0 in H.
                 replace (size a
                          + (size seg
                             + size (BACKSLASH :: repeat BACKSLASH k ++ [QUOTE]))
                          + 0)
                   with (size a + size seg + (1 + Z.of_nat k) + 1) in H.
                 2:{ unfold size. simpl length.
                     rewrite length_app, repeat_length. simpl length. lia. }
                 rewrite <- !app_assoc. cbn [app].
                 rewrite H; [|lia|exact Hr|left; split; reflexivity].
                 replace ((1 + Z.of_nat k) * 2) with (Z.of_nat (2 * S k)) by lia.
                 rewrite backslashes_nat. reflexivity.
              ** (* the run ends at an ordinary character *)
                 pose proof (IH (a ++ seg ++ BACKSLASH :: repeat BACKSLASH k)
                               [] (d :: rest)
                               ((result ++ seg)
                                ++ backslashes (1 + Z.of_nat k)) (-1)) as H.
                 rewrite <- !app_assoc in H. cbn [app] in H.
                 rewrite !size_app in H. change (size []) with 0 in H.
                 replace (size a
                          + (size seg + size (BACKSLASH :: repeat BACKSLASH k))
                          + 0)
                   with (size a + size seg + (1 + Z.of_nat k - 1) + 1) in H.
                 2:{ unfold size. simpl length. rewrite repeat_length. lia. }
                 rewrite <- !app_assoc. cbn [app].
                 rewrite H.
                 --- replace (1 + Z.of_nat k) with (Z.of_nat (S k)) by lia.
                     rewrite backslashes_nat. cbn [escape_tail].
                     destruct (Z.eqb_spec d BACKSLASH) as [|_]; [contradiction|].
                     destruct (Z.eqb_spec d QUOTE) as [|_]; [contradiction|].
                     reflexivity.
                 --- simpl. lia.
                 --- cbn [forallb]. rewrite Hdf, Hr. reflexivity.
                 --- left; split; reflexivity.
        -- (* an ordinary character *)
           cbn [orb escape_tail].
           destruct (Z.eqb_spec c BACKSLASH) as [|_]; [contradiction|].
           destruct (Z.eqb_spec c QUOTE) as [|_]; [contradiction|].
           cbn [repeat app].
           pose proof (IH a (seg ++ [c]) r result
                         (if start <? 0 then size a + size seg else start))
             as H.
           rewrite <- !app_assoc in H. cbn [app] in H.
           rewrite size_snoc in H.
           replace (size a + (size seg + 1)) with (size a + size seg + 1)
             in H by lia.
           rewrite H; [reflexivity|lia|exact Hr|].
           right. destruct Hmode as [[-> ->] | ->].
           ++ change (size []) with 0. simpl. lia.
           ++ pose proof (size_nonneg a).
              destruct (Z.ltb_spec (size a) 0); [lia|reflexivity].
Qed.

Lemma WindowsEscapeArg2_quoted (s : wstring) :
  needs_escaping s = true -> forallb narrows_faithfully s = true ->
  WindowsEscapeArg2 s = QUOTE :: escape_tail O s ++ [QUOTE].
Proof.
  intros Hneeds Hfaith. unfold WindowsEscapeArg2.
  destruct s as [|c s]; [discriminate Hneeds|].
  rewrite Hneeds. cbn [negb].
  pose proof (escape_loop_spec (length (c :: s)) [] [] (c :: s) [QUOTE] 0
                (le_n _) Hfaith (or_intror eq_refl)) as H.
  cbn [app] in H. change (size [] + size []) with 0 in H.
  unfold close_segment in H.
  destruct (escape_loop (length (c :: s)) (c :: s) 0 0 [QUOTE])
    as [result start].
  exact (f_equal (fun r => r ++ [QUOTE]) H).
Qed.

(** ** The splitter on quoted text *)

Lemma split_step_backslashes (k : nat) :
  forall (l : wstring) (q : bool) (p : nat) (cur : option wstring)
         (fin : list wstring),
    fold_left split_step (repeat BACKSLASH k ++ l) (mkSplitter q p cur fin)
    = fold_left split_step l (mkSplitter q (p + k) cur fin).
Proof.
  induction k as [|k IH]; intros l q p cur fin.
  - simpl. rewrite Nat.add_0_r. reflexivity.
  - cbn [repeat app fold_left]. unfold split_step at 2.
    change (BACKSLASH =? BACKSLASH) with true. cbn [in_quotes pending current
                                                      finished].
    rewrite IH. do 2 f_equal. lia.
Qed.

Lemma odd_double (n : nat) :
  Nat.odd (2 * n) = false /\ Nat.odd (S (2 * n)) = true.
Proof.
  induction n as [|n [IH1 IH2]]; [split; reflexivity|].
  replace (2 * S n)%nat with (S (S (2 * n))) by lia.
  split; [exact IH1 | exact IH2].
Qed.

Lemma flush_some (n : nat) (acc : wstring) :
  flush n (Some acc) = Some (acc ++ repeat BACKSLASH n).
Proof. destruct n; simpl; [rewrite app_nil_r|]; reflexivity. Qed.

(** Inside the quotes, with [acc] decoded so far, the splitter reads the
    quoted form of [n] backslashes and [s] up to the closing quote and has
    then decoded exactly those characters. *)
Lemma split_escape_tail (s : wstring) :
  forall (n : nat) (acc : wstring) (fin : list wstring),
    fold_left split_step (escape_tail n s ++ [QUOTE])
      (mkSplitter true O (Some acc) fin)
    = mkSplitter false O (Some (acc ++ repeat BACKSLASH n ++ s)) fin.
Proof.
  induction s as [|c s IH]; intros n acc fin.
  - cbn [escape_tail]. rewrite split_step_backslashes. cbn [fold_left Nat.add].
    unfold split_step. change (QUOTE =? BACKSLASH) with false.
    change (QUOTE =? QUOTE) with true. cbn [pending current in_quotes finished].
    destruct (odd_double n) as [-> _]. rewrite Nat.div2_double.
    rewrite app_nil_r. reflexivity.
  - cbn [escape_tail].
    destruct (Z.eqb_spec c BACKSLASH) as [->|Hb].
    + rewrite IH. rewrite <- repeat_snoc. reflexivity.
    + destruct (Z.eqb_spec c QUOTE) as [->|Hq].
      * replace (repeat BACKSLASH (2 * n) ++ [BACKSLASH; QUOTE]
                 ++ escape_tail 0 s)
          with (repeat BACKSLASH (S (2 * n)) ++ QUOTE :: escape_tail 0 s)
          by (rewrite <- repeat_snoc; reflexivity).
        rewrite <- app_assoc, split_step_backslashes.
        cbn [app fold_left Nat.add]. unfold split_step at 2.
        change (QUOTE =? BACKSLASH) with false.
        change (QUOTE =? QUOTE) with true.
        cbn [pending current in_quotes finished].
        destruct (odd_double n) as [_ ->]. rewrite Nat.div2_succ_double.
        cbn [emit]. rewrite IH. cbn [repeat app].
        rewrite <- !app_assoc. reflexivity.
      * rewrite <- app_assoc, split_step_backslashes.
        cbn [app fold_left Nat.add]. unfold split_step at 2.
        destruct (Z.eqb_spec c BACKSLASH) as [|_]; [contradiction|].
        destruct (Z.eqb_spec c QUOTE) as [|_]; [contradiction|].
        cbn [pending current in_quotes finished negb].
        rewrite andb_false_r, flush_some. cbn [emit].
        rewrite IH. cbn [repeat app]. rewrite <- !app_assoc. reflexivity.
Qed.

Lemma split_args_quoted (s : wstring) :
  split_args (QUOTE :: escape_tail O s ++ [QUOTE]) = [s].
Proof.
  unfold split_args.
  change (fold_left split_step (QUOTE :: escape_tail O s ++ [QUOTE])
            (mkSplitter false O None []))
    with (fold_left split_step (escape_tail O s ++ [QUOTE])
            (mkSplitter true O (Some []) [])).
  rewrite split_escape_tail. reflexivity.
Qed.

(** ** The splitter on text without white space or quotes *)

Lemma split_end_started (st : splitter) :
  arg_started st = true -> split_end st = finished st ++ [arg_text st].
Proof.
  destruct st as [q p cur fin]. unfold arg_started, split_end, arg_text.
  cbn [pending current finished]. intro H.
  destruct cur as [a|].
  - rewrite flush_some. reflexivity.
  - destruct p; [discriminate H|]. reflexivity.
Qed.

Lemma split_step_plain (c : wchar_t) (p : nat) (cur : option wstring)
  (fin : list wstring) :
  c <> SPACE -> c <> TAB -> c <> QUOTE ->
  split_step (mkSplitter false p cur fin) c
  = if c =? BACKSLASH then mkSplitter false (S p) cur fin
    else mkSplitter false O (emit (flush p cur) [c]) fin.
Proof.
  intros Hsp Htab Hquote. unfold split_step.
  cbn [in_quotes pending current finished].
  destruct (c =? BACKSLASH); [reflexivity|].
  destruct (Z.eqb_spec c QUOTE) as [|_]; [contradiction|].
  destruct (Z.eqb_spec c SPACE) as [|_]; [contradiction|].
  destruct (Z.eqb_spec c TAB) as [|_]; [contradiction|].
  reflexivity.
Qed.

Lemma split_plain (s : wstring) :
  forall st : splitter,
    in_quotes st = false ->
    (forall c, In c s -> c <> SPACE /\ c <> TAB /\ c <> QUOTE) ->
    finished (fold_left split_step s st) = finished st
    /\ arg_text (fold_left split_step s st) = arg_text st ++ s
    /\ (arg_started st = true \/ s <> [] ->
        arg_started (fold_left split_step s st) = true).
Proof.
  induction s as [|c s IH]; intros st Hq Hs.
  - cbn. rewrite app_nil_r. repeat split. intros [H|H]; [exact H|contradiction].
  - cbn [fold_left].
    destruct (Hs c (or_introl eq_refl)) as (Hsp & Htab & Hquote).
    assert (Hs' : forall c, In c s -> c <> SPACE /\ c <> TAB /\ c <> QUOTE)
      by (intros d Hd; apply Hs; right; exact Hd).
    destruct st as [q p cur fin]. cbn [in_quotes] in Hq. subst q.
    rewrite split_step_plain by assumption.
    destruct (Z.eqb_spec c BACKSLASH) as [Eb|Hb].
    + destruct (IH (mkSplitter false (S p) cur fin) eq_refl Hs')
        as (Hfin & Htext & Hstarted).
      rewrite Hfin, Htext. repeat split.
      * unfold arg_text. cbn [current pending]. subst c.
        rewrite <- app_assoc, <- repeat_snoc, <- app_assoc. reflexivity.
      * intros _. apply Hstarted. left. unfold arg_started.
        cbn [current pending]. destruct cur; reflexivity.
    + destruct (IH (mkSplitter false O (emit (flush p cur) [c]) fin) eq_refl Hs')
        as (Hfin & Htext & Hstarted).
      rewrite Hfin, Htext. repeat split.
      * unfold arg_text. cbn [current pending repeat].
        destruct cur as [a|]; [rewrite flush_some|destruct p]; cbn [flush emit app];
          rewrite ?app_nil_r, <- ?app_assoc; reflexivity.
      * intros _. apply Hstarted. left. unfold arg_started.
        cbn [current pending]. destruct (flush p cur); reflexivity.
Qed.

Lemma split_args_plain (s : wstring) :
  s <> [] ->
  (forall c, In c s -> c <> SPACE /\ c <> TAB /\ c <> QUOTE) ->
  split_args s = [s].
Proof.
  intros Hne Hs. unfold split_args.
  destruct (split_plain s (mkSplitter false O None []) eq_refl Hs)
    as (Hfin & Htext & Hstarted).
  rewrite split_end_started by (apply Hstarted; right; exact Hne).
  rewrite Hfin, Htext. reflexivity.
Qed.

(** ** Quoting: the round trip *)

Lemma needs_escaping_false_inv (s : wstring) :
  needs_escaping s = false ->
  forall c, In c s -> c <> SPACE /\ c <> QUOTE.
Proof.
  unfold needs_escaping. intros H c Hin.
  induction s as [|d s IH]; [destruct Hin|].
  simpl in H. apply orb_false_elim in H. destruct H as [Hd Hs].
  destruct Hin as [->|Hin]; [|apply IH; assumption].
  apply orb_false_elim in Hd. destruct Hd as [Hsp Hq].
  apply Z.eqb_neq in Hsp. apply Z.eqb_neq in Hq. split; assumption.
Qed.

(** X1: the round trip holds wherever the two slips below do not bite: when
    no code unit of [s] has the low byte of a quote or of a backslash
    without being one, and [s] holds a tab only if it also holds a space
    or a quote. *)
Theorem quoting_round_trip_of_faithful_strings (s : wstring) :
  forallb narrows_faithfully s = true ->
  (In TAB s -> needs_escaping s = true) ->
  split_args (WindowsEscapeArg2 s) = [s].
Proof.
  intros Hfaith Htab.
  destruct s as [|c s]; [reflexivity|].
  destruct (needs_escaping (c :: s)) eqn:E.
  - rewrite WindowsEscapeArg2_quoted by assumption. apply split_args_quoted.
  - replace (WindowsEscapeArg2 (c :: s)) with (c :: s)
      by (unfold WindowsEscapeArg2; rewrite E; reflexivity).
    apply split_args_plain; [discriminate|].
    intros d Hd. destruct (needs_escaping_false_inv _ E d Hd) as [Hsp Hq].
    repeat split; try assumption.
    intros ->. apply Htab in Hd. discriminate Hd.
Qed.

Lemma quoting_round_trip_of_faithful_strings_witness :
  split_args (WindowsEscapeArg2 (L "a\ b\\" ++ [QUOTE; TAB] ++ L "c\\\"))
  = [L "a\ b\\" ++ [QUOTE; TAB] ++ L "c\\\"].
Proof.
  apply quoting_round_trip_of_faithful_strings.
  - reflexivity.
  - intros _. reflexivity.
Defined.

(** C1 does not hold of the code.  For the string made of a space and the
    code unit [U+0122], the loop narrows [0x0122] to the [char] [0x22],
    takes it for a quote and writes a backslash and a quote: the quoted
    form decodes to a space and a quote, not to the input. *)
Theorem quoting_round_trip_fails_after_narrowing :
  WindowsEscapeArg2 [SPACE; 290] = [QUOTE; SPACE; BACKSLASH; QUOTE; QUOTE]
  /\ split_args (WindowsEscapeArg2 [SPACE; 290]) = [[SPACE; QUOTE]]
  /\ split_args (WindowsEscapeArg2 [SPACE; 290]) <> [[SPACE; 290]].
Proof. repeat split. vm_compute. discriminate. Qed.

(** The second slip: a tab is white space for the splitter, but the first
    loop looks for spaces and quotes only, so [a<TAB>b] is returned
    unquoted and decodes to two arguments. *)
Lemma quoting_round_trip_fails_on_tab :
  WindowsEscapeArg2 [97; TAB; 98] = [97; TAB; 98]
  /\ split_args (WindowsEscapeArg2 [97; TAB; 98]) = [[97]; [98]].
Proof. split; reflexivity. Qed.

(** * Further properties of the file's functions *)

(** ** The executable extension *)

Lemma starts_with_refl (pat rest : wstring) : starts_with pat (pat ++ rest) = true.
Proof.
  induction pat as [|p pat IH]; [reflexivity|].
  simpl. rewrite Z.eqb_refl. exact IH.
Qed.

Lemma starts_with_prefix (pat : wstring) :
  forall s, starts_with pat s = true -> s = pat ++ skipn (length pat) s.
Proof.
  induction pat as [|p pat IH]; intros s H; [reflexivity|].
  destruct s as [|c s]; [discriminate H|].
  simpl in H. apply andb_true_iff in H. destruct H as [Hpc Hrest].
  apply Z.eqb_eq in Hpc. subst c. simpl. f_equal. apply IH, Hrest.
Qed.

Lemma starts_with_short (pat : wstring) :
  forall s, (length s < length pat)%nat -> starts_with pat s = false.
Proof.
  induction pat as [|p pat IH]; intros s H; [simpl in H; lia|].
  destruct s as [|c s]; [reflexivity|].
  simpl. rewrite IH by (simpl in H; lia). apply andb_false_r.
Qed.

Lemma find_in_short (pat s : wstring) :
  forall idx, (length s < length pat)%nat -> find_in pat s idx = None.
Proof.
  induction s as [|c s IH]; intros idx H.
  - simpl. rewrite starts_with_short by exact H. reflexivity.
  - cbn [find_in]. rewrite starts_with_short by exact H.
    apply IH. simpl in H. lia.
Qed.

Lemma find_in_same_length (pat s : wstring) (idx : Z) :
  length s = length pat ->
  find_in pat s idx = if starts_with pat s then Some idx else None.
Proof.
  intro H. destruct s as [|c s]; cbn [find_in];
    destruct (starts_with pat _); try reflexivity.
  apply find_in_short. simpl in H. lia.
Qed.

Lemma find_in_self (pat : wstring) (idx : Z) : find_in pat pat idx = Some idx.
Proof.
  pose proof (starts_with_refl pat []) as H. rewrite app_nil_r in H.
  destruct pat; cbn [find_in]; rewrite H; reflexivity.
Qed.

Lemma substr_prefix (a b : wstring) : substr (a ++ b) 0 (size a) = a.
Proof.
  unfold substr, size. rewrite Nat2Z.id. cbn [Z.to_nat skipn].
  rewrite firstn_app, Nat.sub_diag, firstn_all. cbn [firstn]. apply app_nil_r.
Qed.

Lemma without_extension_strips (b : wstring) :
  GetBinaryPathWithoutExtension (b ++ dot_exe) = b.
Proof.
  unfold GetBinaryPathWithoutExtension, find.
  rewrite size_app. change (size dot_exe) with 4.
  replace (size b + 4 - 4) with (size b) by lia.
  pose proof (size_nonneg b).
  destruct (Z.geb_spec (size b + 4) 4); [|lia].
  destruct (Z.leb_spec (size b) (size b + 4)); [|lia].
  rewrite substr_from_app, find_in_self. cbn [andb]. apply substr_prefix.
Qed.

Lemma without_extension_keeps (binary : wstring) :
  (forall b, binary <> b ++ dot_exe) ->
  GetBinaryPathWithoutExtension binary = binary.
Proof.
  intro H. unfold GetBinaryPathWithoutExtension, find.
  destruct (Z.geb_spec (size binary) 4) as [Hge|]; [|reflexivity].
  destruct (Z.leb_spec (size binary - 4) (size binary)); [|lia].
  assert (Hlen : length (substr_from binary (size binary - 4)) = length dot_exe).
  { unfold substr_from, size in *. rewrite length_skipn.
    change (length dot_exe) with 4%nat. lia. }
  rewrite find_in_same_length by exact Hlen.
  destruct (starts_with dot_exe (substr_from binary (size binary - 4))) eqn:E;
    [|reflexivity].
  exfalso. apply starts_with_prefix in E.
  rewrite skipn_all2 in E by lia. rewrite app_nil_r in E.
  apply (H (firstn (Z.to_nat (size binary - 4)) binary)).
  rewrite <- E. unfold substr_from. symmetry. apply firstn_skipn.
Qed.

(** X7: [GetBinaryPathWithoutExtension] removes a final [.exe], compared
    character for character, and nothing else: a name that ends in [.exe]
    loses exactly these four characters, any other name is returned as it
    is. *)
Theorem without_extension_spec :
  (forall b, GetBinaryPathWithoutExtension (b ++ dot_exe) = b)
  /\ (forall binary,
         (forall b, binary <> b ++ dot_exe) ->
         GetBinaryPathWithoutExtension binary = binary).
Proof. split; [exact without_extension_strips | exact without_extension_keeps]. Qed.

Lemma without_extension_spec_witness :
  GetBinaryPathWithoutExtension (L "tool.exe") = L "tool"
  /\ GetBinaryPathWithoutExtension (L "tool.EXE") = L "tool.EXE".
Proof.
  destruct without_extension_spec as [Hstrip Hkeep]. split.
  - exact (Hstrip (L "tool")).
  - apply Hkeep. intros b E.
    apply (f_equal (fun l => nth 1 (rev l) 0)) in E.
    rewrite rev_app_distr in E. vm_compute in E. discriminate E.
Defined.

(** X8: adding the extension twice adds it once, and removing it after
    adding it gives what removing it from the original gives. *)
Theorem with_extension_idempotent (binary : wstring) :
  GetBinaryPathWithExtension (GetBinaryPathWithExtension binary)
  = GetBinaryPathWithExtension binary
  /\ GetBinaryPathWithoutExtension (GetBinaryPathWithExtension binary)
     = GetBinaryPathWithoutExtension binary.
Proof.
  unfold GetBinaryPathWithExtension.
  rewrite without_extension_strips. split; reflexivity.
Qed.

(** ** Base name and parent directory *)

Lemma is_separator_iff (c : wchar_t) :
  existsb (Z.eqb c) separators = true <-> c = BACKSLASH \/ c = SLASH.
Proof.
  unfold separators. cbn [existsb]. rewrite orb_false_r, orb_true_iff.
  rewrite !Z.eqb_eq. reflexivity.
Qed.

Lemma no_separator_cons (c : wchar_t) (s : wstring) :
  no_separator (c :: s) ->
  existsb (Z.eqb c) separators = false /\ no_separator s.
Proof.
  intros [Hb Hs]. split.
  - destruct (existsb (Z.eqb c) separators) eqn:E; [|reflexivity].
    apply is_separator_iff in E.
    destruct E as [->| ->]; [contradiction Hb|contradiction Hs]; left; reflexivity.
  - split; intro H; [apply Hb|apply Hs]; right; exact H.
Qed.

Lemma find_last_of_none (s : wstring) :
  forall idx found,
    no_separator s -> find_last_of_from separators s idx found = found.
Proof.
  induction s as [|c s IH]; intros idx found H; [reflexivity|].
  apply no_separator_cons in H. destruct H as [Hc Hs].
  cbn [find_last_of_from]. rewrite Hc. apply IH, Hs.
Qed.

Lemma find_last_of_split (d : wstring) :
  forall (c : wchar_t) (b : wstring) (idx : Z) (found : option Z),
    c = BACKSLASH \/ c = SLASH -> no_separator b ->
    find_last_of_from separators (d ++ c :: b) idx found
    = Some (idx + size d).
Proof.
  induction d as [|x d IH]; intros c b idx found Hc Hb.
  - cbn [app find_last_of_from]. apply is_separator_iff in Hc. rewrite Hc.
    rewrite find_last_of_none by exact Hb.
    change (size []) with 0. rewrite Z.add_0_r. reflexivity.
  - cbn [app find_last_of_from]. rewrite IH by assumption.
    f_equal. unfold size. simpl length. lia.
Qed.

Lemma last_separator (path : wstring) :
  no_separator path
  \/ exists d c b,
       path = d ++ c :: b /\ (c = BACKSLASH \/ c = SLASH) /\ no_separator b.
Proof.
  induction path as [|x path [IH|(d & c & b & -> & Hc & Hb)]].
  - left. split; intros [].
  - destruct (existsb (Z.eqb x) separators) eqn:E.
    + right. exists [], x, path. apply is_separator_iff in E. tauto.
    + left. destruct IH as [Hb Hs].
      split; intros [H|H]; try contradiction; subst x;
        vm_compute in E; discriminate E.
  - right. exists (x :: d), c, b. tauto.
Qed.

(** X9: a path without a backslash or slash is its own base name and,
    the search giving [npos], also its own parent directory. *)
Theorem path_without_separator (path : wstring) :
  no_separator path -> size path <= npos ->
  GetBaseNameFromPath path = path /\ GetParentDirFromPath path = path.
Proof.
  intros Hs Hsize.
  unfold GetBaseNameFromPath, GetParentDirFromPath, find_last_of.
  rewrite find_last_of_none by exact Hs. split; [reflexivity|].
  unfold substr_upto, substr. rewrite Z.sub_0_r, Z.min_r by exact Hsize.
  cbn [Z.to_nat skipn]. unfold size. rewrite Nat2Z.id. apply firstn_all.
Qed.

Lemma path_without_separator_witness :
  GetBaseNameFromPath (L "launcher.exe") = L "launcher.exe"
  /\ GetParentDirFromPath (L "launcher.exe") = L "launcher.exe".
Proof.
  apply path_without_separator.
  - split; vm_compute; intuition discriminate.
  - vm_compute. discriminate.
Defined.

Lemma parent_and_base_of_cut (d b : wstring) (c : wchar_t) :
  c = BACKSLASH \/ c = SLASH -> no_separator b ->
  GetParentDirFromPath (d ++ c :: b) = d
  /\ GetBaseNameFromPath (d ++ c :: b) = b.
Proof.
  intros Hc Hb.
  unfold GetBaseNameFromPath, GetParentDirFromPath, find_last_of.
  rewrite find_last_of_split by assumption. rewrite Z.add_0_l. split.
  - unfold substr_upto. rewrite Z.sub_0_r, Z.min_l.
    + apply substr_prefix.
    + rewrite size_app. pose proof (size_nonneg (c :: b)). lia.
  - replace (d ++ c :: b) with ((d ++ [c]) ++ b)
      by (rewrite <- app_assoc; reflexivity).
    rewrite <- (size_snoc d c). apply substr_from_app.
Qed.

(** X10: a path is cut at its last separator, backslash or slash alike:
    what precedes it is the parent directory, what follows is the base
    name, and the separator itself belongs to neither. *)
Theorem path_cut_at_last_separator (d b : wstring) (c : wchar_t) :
  c = BACKSLASH \/ c = SLASH -> no_separator b ->
  GetParentDirFromPath (d ++ c :: b) = d
  /\ GetBaseNameFromPath (d ++ c :: b) = b.
Proof. exact (parent_and_base_of_cut d b c). Qed.

Lemma path_cut_at_last_separator_witness :
  GetParentDirFromPath (L "c:\foo/bar.exe") = L "c:\foo"
  /\ GetBaseNameFromPath (L "c:\foo/bar.exe") = L "bar.exe".
Proof.
  apply (path_cut_at_last_separator (L "c:\foo") (L "bar.exe") SLASH).
  - right. reflexivity.
  - split; vm_compute; intuition discriminate.
Defined.

(** X11: the base name of any path holds no separator. *)
Theorem base_name_has_no_separator (path : wstring) :
  no_separator (GetBaseNameFromPath path).
Proof.
  destruct (last_separator path) as [Hs|(d & c & b & -> & Hc & Hb)].
  - unfold GetBaseNameFromPath, find_last_of.
    rewrite find_last_of_none by exact Hs. exact Hs.
  - destruct (parent_and_base_of_cut d b c Hc Hb) as [_ ->]. exact Hb.
Qed.

(** ** RelativeTo: more of what it returns *)

Lemma relative_core_refl (s : wstring) : relative_core s s = [].
Proof.
  unfold relative_core.
  destruct (lockstep s s 0 (-1)) as [pos bsp] eqn:E.
  destruct (lockstep_stops _ _ _ _ _ _ E) as [Hstop _].
  rewrite Z.sub_0_r in Hstop.
  destruct Hstop as [H|H]; [contradiction H; reflexivity|].
  rewrite H. reflexivity.
Qed.

Lemma same_path_is_accepted (IsAbsolute : wstring -> bool) (path : wstring) :
  mixed IsAbsolute path path || different_drives IsAbsolute path path = false.
Proof.
  unfold mixed, different_drives.
  rewrite Bool.eqb_reflx, Z.eqb_refl. cbn [negb orb]. apply andb_false_r.
Qed.

(** X13: relative to itself every path, normalized or not, is the empty
    string, under any classification of absolute paths; nothing is
    reported. *)
Theorem RelativeTo_same_path (IsAbsolute : wstring -> bool)
  (path result : wstring) (w : world) :
  RelativeTo IsAbsolute path path result w = Returned (true, []) w.
Proof.
  rewrite RelativeTo_success by apply same_path_is_accepted.
  rewrite relative_core_refl. reflexivity.
Qed.

(** X14: a call that returns [true] passed both checks and has written
    nothing: the world is the one it was called in. *)
Theorem RelativeTo_success_is_silent (IsAbsolute : wstring -> bool)
  (path base result r : wstring) (w w' : world) :
  RelativeTo IsAbsolute path base result w = Returned (true, r) w' ->
  w' = w
  /\ mixed IsAbsolute path base = false
  /\ different_drives IsAbsolute path base = false.
Proof.
  intro H.
  destruct (mixed IsAbsolute path base || different_drives IsAbsolute path base)
    eqn:E.
  - destruct (RelativeTo_failure IsAbsolute path base result w E) as [mode E'].
    rewrite E' in H. discriminate H.
  - rewrite (RelativeTo_success IsAbsolute path base result w E) in H.
    injection H as _ <-. apply orb_false_elim in E. tauto.
Qed.

Lemma RelativeTo_success_is_silent_witness :
  initial_world = initial_world
  /\ mixed blaze_util.IsAbsolute (L "C:\foo\bar") (L "C:\baz") = false
  /\ different_drives blaze_util.IsAbsolute (L "C:\foo\bar") (L "C:\baz")
     = false.
Proof.
  apply (RelativeTo_success_is_silent blaze_util.IsAbsolute
           (L "C:\foo\bar") (L "C:\baz") [] (L "..\foo\bar")
           initial_world initial_world).
  reflexivity.
Defined.

(** X15: the shape of the result on normalized paths.  When [path] and
    [base] share the directory [cs] and then part, [path] going on with
    the segments [ps] and [base] with [bs], the result is one [..\] for
    each segment of [bs] followed by [ps]. *)
Theorem RelativeTo_of_segments (IsAbsolute : wstring -> bool)
  (cs ps bs : list wstring) (result : wstring) (w : world) :
  Forall seg_ok cs -> Forall seg_ok ps -> Forall seg_ok bs ->
  match ps, bs with
  | p :: _, b :: _ => p <> b
  | _, _ => True
  end ->
  mixed IsAbsolute (join_path (cs ++ ps)) (join_path (cs ++ bs))
  || different_drives IsAbsolute (join_path (cs ++ ps)) (join_path (cs ++ bs))
  = false ->
  RelativeTo IsAbsolute (join_path (cs ++ ps)) (join_path (cs ++ bs)) result w
  = Returned (true, dotdots (length bs) ++ join_path ps) w.
Proof.
  intros Hcs Hps Hbs Hdiff Hok.
  rewrite RelativeTo_success by exact Hok.
  rewrite relative_core_segments by assumption. reflexivity.
Qed.

Lemma RelativeTo_of_segments_witness :
  RelativeTo blaze_util.IsAbsolute (L "C:\foo\bar1\qux") (L "C:\foo\bar2\a\b")
    [] initial_world
  = Returned (true, L "..\..\..\bar1\qux") initial_world.
Proof.
  assert (Hseg : forall seg, clean_segment seg = true ->
                             forallb (fun c => negb (c =? BACKSLASH)) seg = true ->
                             seg_ok seg).
  { intros seg Hc Hb. split; [exact Hc|].
    intro Hin. rewrite forallb_forall in Hb. apply Hb in Hin. discriminate Hin. }
  apply (RelativeTo_of_segments blaze_util.IsAbsolute
           [L "C:"; L "foo"] [L "bar1"; L "qux"] [L "bar2"; L "a"; L "b"]
           [] initial_world).
  - repeat constructor; apply Hseg; reflexivity.
  - repeat constructor; apply Hseg; reflexivity.
  - repeat constructor; apply Hseg; reflexivity.
  - vm_compute. discriminate.
  - reflexivity.
Defined.

Lemma relative_core_under_root (d x : wstring) :
  ~ In NUL d -> hd NUL x <> NUL -> hd NUL x <> BACKSLASH ->
  relative_core ((d ++ [BACKSLASH]) ++ x) (d ++ [BACKSLASH]) = x.
Proof.
  intros Hd Hx Hxb. unfold relative_core.
  assert (Hnul : ~ In NUL (d ++ [BACKSLASH])).
  { intro H. apply in_app_or in H. destruct H as [H|[H|[]]];
      [contradiction|discriminate H]. }
  rewrite <- (app_nil_r (d ++ [BACKSLASH])) at 2.
  rewrite lockstep_common by exact Hnul.
  assert (E : lockstep x [] (0 + size (d ++ [BACKSLASH]))
                (last_backslash (d ++ [BACKSLASH]) 0 (-1))
              = (0 + size (d ++ [BACKSLASH]),
                 last_backslash (d ++ [BACKSLASH]) 0 (-1)))
    by (destruct x; reflexivity).
  rewrite E. clear E.
  rewrite last_backslash_app. cbn [last_backslash].
  change (BACKSLASH =? BACKSLASH) with true. cbn iota.
  rewrite Z.add_0_l, at_app, at_size.
  destruct (Z.eqb_spec (hd NUL x) NUL) as [|_]; [contradiction|].
  destruct (Z.eqb_spec (hd NUL x) BACKSLASH) as [|_]; [contradiction|].
  rewrite Z.eqb_refl. change (NUL =? BACKSLASH) with false. cbn [andb orb].
  replace (0 + size d + 1) with (size (d ++ [BACKSLASH]))
    by (rewrite size_snoc; lia).
  rewrite Z.ltb_irrefl, substr_from_past_end by lia.
  destruct (Z.eqb_spec (0 + size d) (size ((d ++ [BACKSLASH]) ++ x))) as [E|_].
  { rewrite !size_app in E. change (size [BACKSLASH]) with 1 in E.
    pose proof (size_nonneg x). lia. }
  cbn [negb flat_map app]. apply substr_from_app.
Qed.

(** X16: a [base] that ends in a backslash, as a drive root does, takes no
    ascent: when [path] continues [base] with a segment, the result is
    that continuation. *)
Theorem RelativeTo_under_root (IsAbsolute : wstring -> bool)
  (d x result : wstring) (w : world) :
  ~ In NUL d -> hd NUL x <> NUL -> hd NUL x <> BACKSLASH ->
  mixed IsAbsolute ((d ++ [BACKSLASH]) ++ x) (d ++ [BACKSLASH])
  || different_drives IsAbsolute ((d ++ [BACKSLASH]) ++ x) (d ++ [BACKSLASH])
  = false ->
  RelativeTo IsAbsolute ((d ++ [BACKSLASH]) ++ x) (d ++ [BACKSLASH]) result w
  = Returned (true, x) w.
Proof.
  intros Hd Hx Hxb Hok.
  rewrite RelativeTo_success by exact Hok.
  rewrite relative_core_under_root by assumption. reflexivity.
Qed.

Lemma RelativeTo_under_root_witness :
  RelativeTo blaze_util.IsAbsolute (L "C:\foo\bar") (L "C:\") [] initial_world
  = Returned (true, L "foo\bar") initial_world.
Proof.
  apply (RelativeTo_under_root blaze_util.IsAbsolute (L "C:") (L "foo\bar")
           [] initial_world).
  - vm_compute. intuition discriminate.
  - discriminate.
  - discriminate.
  - reflexivity.
Defined.

(** X12: [RelativeTo] undoes the cut of a path at its last backslash: a
    path with a backslash, taken relative to its parent directory, is its
    base name. *)
Theorem RelativeTo_parent_is_base_name (IsAbsolute : wstring -> bool)
  (d b result : wstring) (w : world) :
  ~ In NUL d -> no_separator b ->
  mixed IsAbsolute (d ++ BACKSLASH :: b)
    (GetParentDirFromPath (d ++ BACKSLASH :: b))
  || different_drives IsAbsolute (d ++ BACKSLASH :: b)
       (GetParentDirFromPath (d ++ BACKSLASH :: b))
  = false ->
  RelativeTo IsAbsolute (d ++ BACKSLASH :: b)
    (GetParentDirFromPath (d ++ BACKSLASH :: b)) result w
  = Returned (true, GetBaseNameFromPath (d ++ BACKSLASH :: b)) w.
Proof.
  intros Hd Hb Hok.
  rewrite RelativeTo_success by exact Hok.
  destruct (parent_and_base_of_cut d b BACKSLASH (or_introl eq_refl) Hb)
    as [-> ->].
  rewrite relative_core_descendant by exact Hd. reflexivity.
Qed.

Lemma RelativeTo_parent_is_base_name_witness :
  RelativeTo blaze_util.IsAbsolute (L "C:\tools\launcher.exe")
    (GetParentDirFromPath (L "C:\tools\launcher.exe")) [] initial_world
  = Returned (true, GetBaseNameFromPath (L "C:\tools\launcher.exe"))
      initial_world.
Proof.
  apply (RelativeTo_parent_is_base_name blaze_util.IsAbsolute
           (L "C:\tools") (L "launcher.exe") [] initial_world).
  - vm_compute. intuition discriminate.
  - split; vm_compute; intuition discriminate.
  - reflexivity.
Defined.

(** ** Quoting: the shape of the output *)

Lemma escape_loop_extends (fuel : nat) :
  forall (s : wstring) (i start : Z) (result : wstring),
    exists x, fst (escape_loop fuel s i start result) = result ++ x.
Proof.
  induction fuel as [|fuel IH]; intros s i start result.
  - exists []. simpl. symmetry. apply app_nil_r.
  - cbn [escape_loop].
    destruct (i <? size s); [|exists []; simpl; symmetry; apply app_nil_r].
    destruct ((to_char (at_ s i) =? QUOTE) || (to_char (at_ s i) =? BACKSLASH)).
    + set (flushed := result ++ substr s start (i - start)).
      assert (Hnext : forall j st extra,
                 exists x, fst (escape_loop fuel s j st (result ++ extra))
                           = result ++ x).
      { intros j st extra. destruct (IH s j st (result ++ extra)) as [x Hx].
        exists (extra ++ x). rewrite Hx. symmetry. apply app_assoc. }
      destruct (start >=? 0).
      * destruct (to_char (at_ s i) =? QUOTE).
        -- subst flushed. rewrite <- app_assoc. apply Hnext.
        -- destruct (backslash_run (length s) s 1 (i + 1)) as [run_len j].
           destruct (j =? size s).
           ++ subst flushed. rewrite <- app_assoc. eexists. reflexivity.
           ++ destruct ((j <? size s) && (at_ s j =? QUOTE));
                subst flushed; rewrite <- !app_assoc; apply Hnext.
      * destruct (to_char (at_ s i) =? QUOTE).
        -- apply Hnext.
        -- destruct (backslash_run (length s) s 1 (i + 1)) as [run_len j].
           destruct (j =? size s).
           ++ eexists. reflexivity.
           ++ destruct ((j <? size s) && (at_ s j =? QUOTE)); apply Hnext.
    + apply IH.
Qed.

(** X2: whenever [WindowsEscapeArg2] quotes, for the empty string and for
    any string with a space or a quote, wide characters included, its
    output begins with a quote and ends with a quote; and when it does not
    quote, the output holds no quote at all. *)
Theorem WindowsEscapeArg2_wrapping (s : wstring) :
  (s = [] \/ needs_escaping s = true ->
   exists body, WindowsEscapeArg2 s = QUOTE :: body ++ [QUOTE])
  /\ (s <> [] -> needs_escaping s = false -> ~ In QUOTE (WindowsEscapeArg2 s)).
Proof.
  split.
  - intros [->|H]; [exists []; reflexivity|].
    unfold WindowsEscapeArg2. destruct s as [|c s]; [discriminate H|].
    rewrite H. cbn [negb].
    destruct (escape_loop_extends (length (c :: s)) (c :: s) 0 0 [QUOTE])
      as [x Hx].
    destruct (escape_loop (length (c :: s)) (c :: s) 0 0 [QUOTE])
      as [result start].
    cbn [fst] in Hx. subst result.
    destruct (negb (start =? -1)).
    + exists (x ++ substr_from (c :: s) start).
      rewrite <- !app_assoc. reflexivity.
    + exists x. reflexivity.
  - intros Hne H. unfold WindowsEscapeArg2.
    destruct s as [|c s]; [contradiction Hne; reflexivity|].
    rewrite H. cbn [negb]. intro Hin.
    destruct (needs_escaping_false_inv _ H QUOTE Hin) as [_ Hq].
    apply Hq. reflexivity.
Qed.

Lemma WindowsEscapeArg2_wrapping_witness :
  (exists body, WindowsEscapeArg2 [SPACE; 290] = QUOTE :: body ++ [QUOTE])
  /\ ~ In QUOTE (WindowsEscapeArg2 (L "a\b")).
Proof.
  destruct (WindowsEscapeArg2_wrapping [SPACE; 290]) as [Hwrap _].
  destruct (WindowsEscapeArg2_wrapping (L "a\b")) as [_ Hplain].
  split.
  - apply Hwrap. right. reflexivity.
  - apply Hplain; [discriminate|reflexivity].
Defined.

(** ** BashEscapeArg *)

Lemma bash_body_length (s : wstring) :
  (length s <= length (flat_map bash_escape_char s))%nat.
Proof.
  induction s as [|c s IH]; [apply le_n|].
  cbn [flat_map]. rewrite length_app. unfold bash_escape_char at 1.
  destruct (c =? QUOTE); [simpl length; lia|].
  destruct (c =? BACKSLASH); simpl length; lia.
Qed.

(** X4: the escaped argument is at least as long as the argument, as the
    comment at [reserve] says. *)
Theorem BashEscapeArg_at_least_as_long (argument : wstring) :
  size argument <= size (BashEscapeArg argument).
Proof.
  unfold BashEscapeArg, size.
  destruct argument as [|c s]; [simpl; lia|].
  pose proof (bash_body_length (c :: s)) as H.
  set (body := flat_map bash_escape_char (c :: s)) in *.
  destruct (existsb (fun c => c =? SPACE) (c :: s));
    rewrite ?length_app; cbn [app]; rewrite ?length_app; simpl length in *; lia.
Qed.

Lemma bash_unescape_body_escape (s : wstring) :
  bash_unescape_body (flat_map bash_escape_char s) = s.
Proof.
  induction s as [|c s IH]; [reflexivity|].
  cbn [flat_map]. unfold bash_escape_char at 1.
  destruct (Z.eqb_spec c QUOTE) as [->|Hq].
  - cbn [app bash_unescape_body]. change (BACKSLASH =? BACKSLASH) with true.
    cbn iota. rewrite IH. reflexivity.
  - destruct (Z.eqb_spec c BACKSLASH) as [->|Hb].
    + cbn [app bash_unescape_body]. change (BACKSLASH =? BACKSLASH) with true.
      cbn iota. rewrite IH. reflexivity.
    + cbn [app bash_unescape_body].
      destruct (Z.eqb_spec c BACKSLASH) as [|_]; [contradiction|].
      rewrite IH. reflexivity.
Qed.

Lemma bash_body_head (c : wchar_t) (s : wstring) :
  exists d rest,
    flat_map bash_escape_char (c :: s) = d :: rest /\ d <> QUOTE.
Proof.
  cbn [flat_map]. unfold bash_escape_char at 1.
  destruct (Z.eqb_spec c QUOTE) as [->|Hq];
    [eexists _, _; split; [reflexivity|discriminate]|].
  destruct (c =? BACKSLASH); eexists _, _; split;
    try reflexivity; try discriminate; exact Hq.
Qed.

Lemma bash_unescape_escape (s : wstring) : bash_unescape (BashEscapeArg s) = s.
Proof.
  unfold BashEscapeArg. destruct s as [|c s]; [reflexivity|].
  destruct (existsb (fun c => c =? SPACE) (c :: s)).
  - unfold bash_unescape. cbn [app]. change (QUOTE =? QUOTE) with true.
    cbn iota. rewrite removelast_last. apply bash_unescape_body_escape.
  - cbn [app]. pose proof (bash_unescape_body_escape (c :: s)) as H.
    destruct (bash_body_head c s) as (d & rest & E & Hd).
    rewrite E in *. unfold bash_unescape.
    destruct (Z.eqb_spec d QUOTE) as [|_]; [contradiction|]. exact H.
Qed.

(** X5: [BashEscapeArg] never gives two arguments the same escaped form:
    the argument can be read back from it. *)
Theorem BashEscapeArg_injective (s1 s2 : wstring) :
  BashEscapeArg s1 = BashEscapeArg s2 -> s1 = s2.
Proof.
  intro H. apply (f_equal bash_unescape) in H.
  rewrite !bash_unescape_escape in H. exact H.
Qed.

Lemma BashEscapeArg_injective_witness : L "a b" = L "a b".
Proof. apply BashEscapeArg_injective. reflexivity. Defined.

Lemma bash_body_plain (s : wstring) :
  ~ In QUOTE s -> ~ In BACKSLASH s -> flat_map bash_escape_char s = s.
Proof.
  induction s as [|c s IH]; intros Hq Hb; [reflexivity|].
  cbn [flat_map]. unfold bash_escape_char at 1.
  destruct (Z.eqb_spec c QUOTE) as [->|_];
    [exfalso; apply Hq; left; reflexivity|].
  destruct (Z.eqb_spec c BACKSLASH) as [->|_];
    [exfalso; apply Hb; left; reflexivity|].
  cbn [app]. rewrite IH; [reflexivity| |]; intro H; [apply Hq|apply Hb];
    right; exact H.
Qed.

Lemma has_space_false (s : wstring) :
  ~ In SPACE s -> existsb (fun c => c =? SPACE) s = false.
Proof.
  induction s as [|c s IH]; intro H; [reflexivity|].
  simpl. destruct (Z.eqb_spec c SPACE) as [->|_];
    [exfalso; apply H; left; reflexivity|].
  apply IH. intro Hin. apply H. right. exact Hin.
Qed.

Lemma BashEscapeArg_plain (s : wstring) :
  s <> [] -> ~ In SPACE s -> ~ In QUOTE s -> ~ In BACKSLASH s ->
  BashEscapeArg s = s.
Proof.
  intros Hne Hsp Hq Hb. unfold BashEscapeArg.
  destruct s as [|c s]; [contradiction Hne; reflexivity|].
  rewrite has_space_false by exact Hsp.
  cbn [app]. apply bash_body_plain; assumption.
Qed.

Lemma escape_tail_plain (s : wstring) :
  ~ In QUOTE s -> ~ In BACKSLASH s -> escape_tail O s = s.
Proof.
  induction s as [|c s IH]; intros Hq Hb; [reflexivity|].
  cbn [escape_tail].
  destruct (Z.eqb_spec c BACKSLASH) as [->|_];
    [exfalso; apply Hb; left; reflexivity|].
  destruct (Z.eqb_spec c QUOTE) as [->|_];
    [exfalso; apply Hq; left; reflexivity|].
  cbn [repeat app]. rewrite IH; [reflexivity| |]; intro H;
    [apply Hq|apply Hb]; right; exact H.
Qed.

Lemma needs_escaping_is_has_space (s : wstring) :
  ~ In QUOTE s -> needs_escaping s = existsb (fun c => c =? SPACE) s.
Proof.
  unfold needs_escaping.
  induction s as [|c s IH]; intro Hq; [reflexivity|].
  simpl. rewrite IH by (intro H; apply Hq; right; exact H).
  destruct (Z.eqb_spec c QUOTE) as [->|_];
    [exfalso; apply Hq; left; reflexivity|].
  rewrite orb_false_r. reflexivity.
Qed.

(** X3: the two quotings differ only in how they treat quotes and
    backslashes: on an argument without either, whose code units are not
    mistaken by the narrowing, [WindowsEscapeArg2] and [BashEscapeArg]
    return the same string. *)
Theorem escapes_agree_without_quote_and_backslash (s : wstring) :
  forallb narrows_faithfully s = true ->
  ~ In QUOTE s -> ~ In BACKSLASH s ->
  WindowsEscapeArg2 s = BashEscapeArg s.
Proof.
  intros Hfaith Hq Hb.
  destruct s as [|c s]; [reflexivity|].
  destruct (needs_escaping (c :: s)) eqn:E.
  - rewrite WindowsEscapeArg2_quoted by assumption.
    rewrite escape_tail_plain by assumption.
    unfold BashEscapeArg. rewrite <- needs_escaping_is_has_space by exact Hq.
    rewrite E, bash_body_plain by assumption. reflexivity.
  - unfold WindowsEscapeArg2, BashEscapeArg.
    rewrite <- needs_escaping_is_has_space by exact Hq.
    rewrite E, bash_body_plain by assumption. reflexivity.
Qed.

Lemma escapes_agree_without_quote_and_backslash_witness :
  WindowsEscapeArg2 (L "--flag=some value") = BashEscapeArg (L "--flag=some value").
Proof.
  apply escapes_agree_without_quote_and_backslash.
  - reflexivity.
  - vm_compute. intuition discriminate.
  - vm_compute. intuition discriminate.
Defined.

(** X6: a non-empty argument without a space, a quote or a backslash is
    returned by [BashEscapeArg] as it is. *)
Theorem BashEscapeArg_unchanged (s : wstring) :
  s <> [] -> ~ In SPACE s -> ~ In QUOTE s -> ~ In BACKSLASH s ->
  BashEscapeArg s = s.
Proof. exact (BashEscapeArg_plain s). Qed.

Lemma BashEscapeArg_unchanged_witness :
  BashEscapeArg (L "--jvm_flag=-Dfoo") = L "--jvm_flag=-Dfoo".
Proof.
  apply BashEscapeArg_unchanged.
  - discriminate.
  - vm_compute. intuition discriminate.
  - vm_compute. intuition discriminate.
  - vm_compute. intuition discriminate.
Defined.

(** ** GetRandomStr *)

Lemma alphabet_is_alphanumeric (k : Z) :
  0 <= k < wcslen alphabet -> is_alphanumeric (at_ alphabet k) = true.
Proof.
  intro H. change (wcslen alphabet) with 62 in H.
  assert (Hall : forallb is_alphanumeric alphabet = true) by reflexivity.
  rewrite forallb_forall in Hall. apply Hall. unfold at_.
  apply nth_In. change (length alphabet) with 62%nat. lia.
Qed.

Lemma random_loop_spec (entropy : nat -> Z) (n : nat) :
  forall (acc : wstring) (drawn : nat),
    exists x,
      random_loop entropy n acc drawn = (acc ++ x, (drawn + n)%nat)
      /\ length x = n /\ forallb is_alphanumeric x = true.
Proof.
  induction n as [|n IH]; intros acc drawn.
  - exists []. cbn [random_loop]. rewrite app_nil_r, Nat.add_0_r.
    repeat split.
  - cbn [random_loop]. unfold rand_s.
    destruct (IH (acc ++ [at_ alphabet
                            ((entropy drawn mod 2 ^ 32) mod wcslen alphabet)])
                (S drawn)) as (x & E & Hlen & Halnum).
    eexists (_ :: x). rewrite E, <- app_assoc. cbn [app].
    split; [f_equal; lia|]. split; [simpl; lia|].
    cbn [forallb]. rewrite Halnum, andb_true_r.
    apply alphabet_is_alphanumeric. apply Z.mod_pos_bound. reflexivity.
Qed.

(** X17: whatever the random source gives, [GetRandomStr len] returns [len]
    characters, each a letter or a digit, and draws [len] values. *)
Theorem GetRandomStr_spec (entropy : nat -> Z) (len drawn : nat) :
  exists str,
    GetRandomStr entropy len drawn = (str, (drawn + len)%nat)
    /\ length str = len /\ forallb is_alphanumeric str = true.
Proof.
  destruct (random_loop_spec entropy len [] drawn) as (x & E & H).
  exists x. split; [exact E | exact H].
Qed.

Lemma alphanumeric_is_plain (s : wstring) :
  forallb is_alphanumeric s = true ->
  ~ In SPACE s /\ ~ In QUOTE s /\ ~ In BACKSLASH s.
Proof.
  intro H. rewrite forallb_forall in H.
  repeat split; intro Hin; apply H in Hin; discriminate Hin.
Qed.

(** X18: a random string needs no quoting: for [len > 0] both
    [WindowsEscapeArg2] and [BashEscapeArg] return it as it is. *)
Theorem random_string_needs_no_quoting (entropy : nat -> Z) (len drawn : nat) :
  len <> O ->
  WindowsEscapeArg2 (fst (GetRandomStr entropy len drawn))
  = fst (GetRandomStr entropy len drawn)
  /\ BashEscapeArg (fst (GetRandomStr entropy len drawn))
     = fst (GetRandomStr entropy len drawn).
Proof.
  intro Hlen.
  destruct (random_loop_spec entropy len [] drawn) as (x & E & Hx & Halnum).
  unfold GetRandomStr. rewrite E. cbn [fst app].
  destruct (alphanumeric_is_plain x Halnum) as (Hsp & Hq & Hb).
  assert (Hne : x <> []) by (intros ->; apply Hlen; symmetry; exact Hx).
  split.
  - unfold WindowsEscapeArg2. destruct x as [|c x]; [contradiction Hne; reflexivity|].
    rewrite needs_escaping_false by assumption. reflexivity.
  - apply BashEscapeArg_plain; assumption.
Qed.

Lemma random_string_needs_no_quoting_witness :
  WindowsEscapeArg2 (fst (GetRandomStr (fun n => Z.of_nat n * 7919 - 3) 8 0))
  = fst (GetRandomStr (fun n => Z.of_nat n * 7919 - 3) 8 0)
  /\ BashEscapeArg (fst (GetRandomStr (fun n => Z.of_nat n * 7919 - 3) 8 0))
     = fst (GetRandomStr (fun n => Z.of_nat n * 7919 - 3) 8 0).
Proof. apply random_string_needs_no_quoting. discriminate. Defined.

(** ** Reporting and exiting *)

Lemma PrintError_restores_mode (format : wstring) (args : list wstring)
  (w : world) :
  PrintError format args w
  = Returned tt
      (mkWorld (stderr_mode w) (stderr_out w ++ launcher_error format args)).
Proof.
  unfold PrintError, bind, _setmode, write, ret, launcher_error.
  destruct (stderr_mode w =? -1) eqn:E.
  - cbn [stderr_mode stderr_out]. change (-1 =? -1) with true.
    cbn [negb]. rewrite <- !app_assoc. reflexivity.
  - cbn [stderr_mode stderr_out]. rewrite E.
    cbn [negb stderr_mode stderr_out].
    change (_O_U8TEXT =? -1) with false. cbn iota.
    rewrite <- !app_assoc. reflexivity.
Qed.

(** X19: a failing [RelativeTo] leaves [stderr] in the translation mode it
    found it in, whether or not [_setmode] could set it: the world after
    the call differs from the one before by the launcher error alone. *)
Theorem RelativeTo_failure_restores_mode (IsAbsolute : wstring -> bool)
  (path base result : wstring) (w : world) :
  mixed IsAbsolute path base || different_drives IsAbsolute path base = true ->
  RelativeTo IsAbsolute path base result w
  = Returned (false, result)
      (mkWorld (stderr_mode w)
         (stderr_out w
          ++ launcher_error
               (if mixed IsAbsolute path base
                then mixed_message else drives_message) [path; base])).
Proof.
  intro H. rewrite RelativeTo_cases.
  destruct (mixed IsAbsolute path base).
  - unfold bind. rewrite PrintError_restores_mode. reflexivity.
  - simpl in H. rewrite H. unfold bind.
    rewrite PrintError_restores_mode. reflexivity.
Qed.

Lemma RelativeTo_failure_restores_mode_witness :
  RelativeTo blaze_util.IsAbsolute (L "C:\foo") (L "D:\foo") [] initial_world
  = Returned (false, [])
      (mkWorld _O_TEXT
         (launcher_error drives_message [L "C:\foo"; L "D:\foo"]))
  /\ RelativeTo blaze_util.IsAbsolute (L "C:\foo") (L "bar") [] (mkWorld (-1) [])
     = Returned (false, [])
         (mkWorld (-1) (launcher_error mixed_message [L "C:\foo"; L "bar"])).
Proof.
  split.
  - apply (RelativeTo_failure_restores_mode blaze_util.IsAbsolute
             (L "C:\foo") (L "D:\foo") [] initial_world).
    reflexivity.
  - apply (RelativeTo_failure_restores_mode blaze_util.IsAbsolute
             (L "C:\foo") (L "bar") [] (mkWorld (-1) [])).
    reflexivity.
Defined.

Lemma die_spec (A : Type) (format : wstring) (args : list wstring) (w : world) :
  exists mode,
    @die A format args w
    = Exited 1 (mkWorld mode (stderr_out w ++ launcher_error format args)).
Proof.
  unfold die, bind, _setmode, write, exit, launcher_error.
  destruct (stderr_mode w =? -1); cbn [stderr_mode stderr_out];
    rewrite <- !app_assoc; eexists; reflexivity.
Qed.

(** ** Existence checks *)

(** X20: when the path cannot be made absolute, neither check answers:
    both leave the process with status 1, in the same state, after one
    launcher error that names the path and the reason. *)
Theorem existence_checks_exit_on_bad_path
  (convert : wstring -> wstring + wstring) (attributes : wstring -> Z)
  (path error : wstring) (w : world) :
  convert path = inr error ->
  exists w',
    DoesFilePathExist convert attributes path w = Exited 1 w'
    /\ DoesDirectoryPathExist convert attributes path w = Exited 1 w'
    /\ stderr_out w'
       = stderr_out w
         ++ launcher_error
              (L "Couldn't convert %s to absolute Windows path: %hs")
              [path; error].
Proof.
  intro H.
  unfold DoesFilePathExist, DoesDirectoryPathExist, AsAbsoluteWindowsPath, bind.
  rewrite H.
  destruct (die_spec wstring
              (L "Couldn't convert %s to absolute Windows path: %hs")
              [path; error] w) as [mode E].
  rewrite E. eexists. repeat split.
Qed.

(** X21: when the path can be made absolute, both checks return without
    writing anything; they are never both true, and one of them is true
    exactly when [GetFileAttributesW] gives valid attributes. *)
Theorem existence_checks_exclusive
  (convert : wstring -> wstring + wstring) (attributes : wstring -> Z)
  (path wpath : wstring) (w : world) :
  convert path = inl wpath ->
  exists is_file is_dir : bool,
    DoesFilePathExist convert attributes path w = Returned is_file w
    /\ DoesDirectoryPathExist convert attributes path w = Returned is_dir w
    /\ is_file && is_dir = false
    /\ is_file || is_dir
       = negb (attributes wpath =? INVALID_FILE_ATTRIBUTES).
Proof.
  intro H.
  unfold DoesFilePathExist, DoesDirectoryPathExist, AsAbsoluteWindowsPath, bind.
  rewrite H. unfold ret. eexists _, _.
  split; [reflexivity|]. split; [reflexivity|].
  destruct (attributes wpath =? INVALID_FILE_ATTRIBUTES);
    destruct (Z.land (attributes wpath) FILE_ATTRIBUTE_DIRECTORY =? 0);
    split; reflexivity.
Qed.

Lemma existence_checks_exit_on_bad_path_witness :
  exists w',
    DoesFilePathExist (fun _ => inr (L "path is empty")) (fun _ => 0) []
      initial_world = Exited 1 w'
    /\ DoesDirectoryPathExist (fun _ => inr (L "path is empty")) (fun _ => 0) []
         initial_world = Exited 1 w'
    /\ stderr_out w'
       = launcher_error (L "Couldn't convert %s to absolute Windows path: %hs")
           [[]; L "path is empty"].
Proof.
  apply (existence_checks_exit_on_bad_path
           (fun _ => inr (L "path is empty")) (fun _ => 0) []
           (L "path is empty") initial_world).
  reflexivity.
Defined.

Lemma existence_checks_exclusive_witness :
  exists is_file is_dir : bool,
    DoesFilePathExist inl (fun _ => 16) (L "c:\tmp") initial_world
    = Returned is_file initial_world
    /\ DoesDirectoryPathExist inl (fun _ => 16) (L "c:\tmp") initial_world
       = Returned is_dir initial_world
    /\ is_file && is_dir = false
    /\ is_file || is_dir = true.
Proof.
  apply (existence_checks_exclusive inl (fun _ => 16) (L "c:\tmp") (L "c:\tmp")
           initial_world).
  reflexivity.
Defined.
